(** * Verification of the Ace code-block node view (panmirror, [ace.ts])

    The development embeds [computeChange] and the methods of
    [CodeBlockNodeView] from
    [src/gwt/panmirror/src/editor/src/optional/ace/ace.ts]
    and proves the properties the specification states about them. *)

From Equations Require Import Equations.
From Stdlib Require Import List Arith NArith ZArith Bool Lia String Ascii.
Import ListNotations.

(** * JavaScript strings

    A JavaScript string is a finite sequence of UTF-16 code units.  The only
    operations [ace.ts] uses on it are [length], [charCodeAt], [slice] and
    strict equality. *)

Module JS.

Definition jsstring := list N.

(** A literal written in the source with ASCII characters only. *)
Definition lit (s : string) : jsstring :=
  map N_of_ascii (list_ascii_of_string s).

(** [s.charCodeAt(i)]: the code unit at [i]; [None] stands for the [NaN]
    returned when [i] is out of range. *)
Definition charCodeAt (s : jsstring) (i : nat) : option N := nth_error s i.

(** [x === y] on the numbers returned by [charCodeAt]: [NaN] is equal to
    nothing, not even to itself. *)
Definition num_eq (x y : option N) : bool :=
  match x, y with
  | Some a, Some b => N.eqb a b
  | _, _ => false
  end.

(** [s.slice(b, e)] for indices that are not negative: both are clamped to
    the length and an empty string comes out when [e <= b]. *)
Definition slice (s : jsstring) (b e : nat) : jsstring :=
  firstn (e - b) (skipn b s).

(** [a === b] on strings. *)
Definition str_eq (a b : jsstring) : bool :=
  if list_eq_dec N.eq_dec a b then true else false.

(** Truthiness of a string: every string but the empty one. *)
Definition truthy (s : jsstring) : bool :=
  match s with [] => false | _ :: _ => true end.

End JS.

Import JS.

(** * The diff engine: [computeChange] *)

Record Change := mkChange { from : nat; to : nat; text : jsstring }.

(** First loop of [computeChange]:
    [while (start < oldEnd && oldVal.charCodeAt(start) === newVal.charCodeAt(start)) ++start;] *)
Equations? scanForward (oldVal newVal : jsstring) (oldEnd start : nat) : nat
  by wf (oldEnd - start) lt :=
  scanForward oldVal newVal oldEnd start with lt_dec start oldEnd => {
    | left _ with num_eq (charCodeAt oldVal start) (charCodeAt newVal start) => {
        | true := scanForward oldVal newVal oldEnd (S start);
        | false := start };
    | right _ := start }.
Proof. lia. Qed.

(** Second loop of [computeChange]:
    [while (oldEnd > start && newEnd > start &&
            oldVal.charCodeAt(oldEnd - 1) === newVal.charCodeAt(newEnd - 1))
       { oldEnd--; newEnd--; }] *)
Equations? scanBackward (oldVal newVal : jsstring) (start oldEnd newEnd : nat)
  : nat * nat by wf oldEnd lt :=
  scanBackward oldVal newVal start oldEnd newEnd with lt_dec start oldEnd => {
    | left _ with lt_dec start newEnd => {
        | left _ with num_eq (charCodeAt oldVal (oldEnd - 1))
                             (charCodeAt newVal (newEnd - 1)) => {
            | true := scanBackward oldVal newVal start (oldEnd - 1) (newEnd - 1);
            | false := (oldEnd, newEnd) };
        | right _ := (oldEnd, newEnd) };
    | right _ := (oldEnd, newEnd) }.
Proof. lia. Qed.

Definition computeChange (oldVal newVal : jsstring) : option Change :=
  if str_eq oldVal newVal then None
  else
    let start := scanForward oldVal newVal (List.length oldVal) 0 in
    let '(oldEnd, newEnd) :=
      scanBackward oldVal newVal start (List.length oldVal) (List.length newVal) in
    Some {| from := start; to := oldEnd; text := slice newVal start newEnd |}.

(** Replacing the half-open range [[from, to)] of [s] with [text]: what a
    [Change] means. *)
Definition replaceRange (s : jsstring) (c : Change) : jsstring :=
  firstn (from c) s ++ text c ++ skipn (to c) s.

(** * The JavaScript runtime: [String.prototype.localeCompare]

    [updateMode] compares language tags with
    [lang.localeCompare(other, undefined, { sensitivity: 'accent' }) === 0].
    With that sensitivity two strings compare as equal when they agree on
    base letters and on accents; a difference of case alone is ignored
    (a = A, but a <> a-acute and a <> b).  With sensitivity ['base'] accents
    are ignored too (a = a-acute).

    The comparison belongs to the runtime, not to the sources, and
    [updateModeWith] below takes it as a parameter.  The functions of this
    module are a stand-in on which [updateMode] can be run: they split each
    code unit of the Basic Latin and Latin-1 letters into its base letter and
    its accent and compare unit by unit, every other code unit being its own
    base letter without accent.  They agree with the runtime on strings made
    of ASCII letters and of the precomposed letters the table lists.  They do
    not follow it where it equates strings of different shapes: a letter
    followed by a combining mark and the precomposed letter, ignorable code
    units, superscripts and ordinal indicators and the plain character.  No
    theorem below rests on what they compute; only concrete runs do. *)

Module Intl.

Definition isUpper (c : N) : bool :=
  ((65 <=? c) && (c <=? 90) ||
   (192 <=? c) && (c <=? 222) && negb (c =? 215))%N.

Definition toLower (c : N) : N := if isUpper c then (c + 32)%N else c.

(** Accents: 0 none, 1 grave, 2 acute, 3 circumflex, 4 tilde, 5 diaeresis,
    6 ring, 7 cedilla. *)
Definition decompose (c : N) : N * N :=
  let l := toLower c in
  let a := 97%N in let e := 101%N in let i := 105%N in
  let o := 111%N in let u := 117%N in let y := 121%N in
  match l with
  | 224 => (a, 1) | 225 => (a, 2) | 226 => (a, 3) | 227 => (a, 4)
  | 228 => (a, 5) | 229 => (a, 6)
  | 231 => (99, 7)
  | 232 => (e, 1) | 233 => (e, 2) | 234 => (e, 3) | 235 => (e, 5)
  | 236 => (i, 1) | 237 => (i, 2) | 238 => (i, 3) | 239 => (i, 5)
  | 241 => (110, 4)
  | 242 => (o, 1) | 243 => (o, 2) | 244 => (o, 3) | 245 => (o, 4)
  | 246 => (o, 5)
  | 249 => (u, 1) | 250 => (u, 2) | 251 => (u, 3) | 252 => (u, 5)
  | 253 => (y, 2) | 255 => (y, 5)
  | _ => (l, 0)
  end%N.

Definition baseLetter (c : N) : N := fst (decompose c).

Definition key_eqb (x y : N * N) : bool :=
  (N.eqb (fst x) (fst y) && N.eqb (snd x) (snd y))%bool.

Fixpoint keys_eqb {A} (eqb : A -> A -> bool) (k1 k2 : list A) : bool :=
  match k1, k2 with
  | [], [] => true
  | x :: r1, y :: r2 => eqb x y && keys_eqb eqb r1 r2
  | _, _ => false
  end.

(** [a.localeCompare(b, undefined, { sensitivity: 'accent' }) === 0] *)
Definition localeCompare_accent_is0 (a b : jsstring) : bool :=
  keys_eqb key_eqb (map decompose a) (map decompose b).

(** [a.localeCompare(b, undefined, { sensitivity: 'base' }) === 0]: the
    comparison that ignores both case and accents. *)
Definition localeCompare_base_is0 (a b : jsstring) : bool :=
  keys_eqb N.eqb (map baseLetter a) (map baseLetter b).

End Intl.

(** * The inner editor (Ace)

    The Ace document and edit session ([ace_editor] and the editor it wraps)
    are not among the sources.  The specification fixes a line-splitting
    convention (newline-delimited rows, rows and columns counted from 0) for
    the conversion between string offsets and row/column positions, and asks
    the inner editor for whole-buffer get, range replace, selection get and
    set, line length and row count. *)

Module Ace.

Record Point := mkPoint { row : nat; column : nat }.

Record Range := mkRange { start : Point; end_ : Point }.

Definition origin : Point := {| row := 0; column := 0 |}.

(** [Range.fromPoints(start, end)] *)
Definition fromPoints (a b : Point) : Range := {| start := a; end_ := b |}.

Definition Point_eqb (p q : Point) : bool :=
  Nat.eqb (row p) (row q) && Nat.eqb (column p) (column q).

Definition Point_leb (p q : Point) : bool :=
  Nat.ltb (row p) (row q) ||
  (Nat.eqb (row p) (row q) && Nat.leb (column p) (column q)).

(** Modelled from the spec: the rows of the document, missing from the
    sources, are the pieces of the buffer between newline code units (10).
    There is always at least one row. *)
Fixpoint splitLines (s : jsstring) : list jsstring :=
  match s with
  | [] => [[]]
  | c :: r =>
      if N.eqb c 10 then [] :: splitLines r
      else match splitLines r with
           | l :: ls => (c :: l) :: ls
           | [] => [[c]]
           end
  end.

(** Modelled from the spec: [doc.indexToPosition(index, 0)], missing from the
    sources, over the rows [lines], the first of which is row [r].  It walks
    the rows, each counting its length plus one for the newline; past the
    last row the column simply overflows. *)
Fixpoint indexToPosition_from (lines : list jsstring) (r index : nat) : Point :=
  match lines with
  | [] => {| row := r; column := index |}
  | [l] => {| row := r; column := index |}
  | l :: ls =>
      if index <? List.length l + 1 then {| row := r; column := index |}
      else indexToPosition_from ls (S r) (index - (List.length l + 1))
  end.

(** Modelled from the spec: [doc.positionToIndex(pos, 0)], missing from the
    sources, is the sum of the lengths (plus one) of the rows before
    [pos.row]; the column is added by [positionToIndex] below. *)
Fixpoint positionToIndex_rows (lines : list jsstring) (r : nat) : nat :=
  match r, lines with
  | S r', l :: ls => List.length l + 1 + positionToIndex_rows ls r'
  | _, _ => 0
  end.

(** The editor with its edit session: the buffer and the selection, held as
    anchor and lead (the lead is the cursor). *)
Record Editor := mkEditor {
  value : jsstring;
  anchor : Point;
  lead : Point
}.

Definition getLength (e : Editor) : nat := List.length (splitLines (value e)).

Definition getLine (e : Editor) (r : nat) : jsstring :=
  nth r (splitLines (value e)) [].

Definition indexToPosition (e : Editor) (index : nat) : Point :=
  indexToPosition_from (splitLines (value e)) 0 index.

Definition positionToIndex (e : Editor) (p : Point) : nat :=
  positionToIndex_rows (splitLines (value e)) (row p) + column p.

Definition getCursorPosition (e : Editor) : Point := lead e.

(** [getSelection().isEmpty()]: anchor and cursor coincide. *)
Definition selectionIsEmpty (e : Editor) : bool := Point_eqb (anchor e) (lead e).

(** [getSelection().getRange()]: the selected range, start before end. *)
Definition getRange (e : Editor) : Range :=
  if Point_leb (anchor e) (lead e)
  then {| start := anchor e; end_ := lead e |}
  else {| start := lead e; end_ := anchor e |}.

(** Modelled from the spec: the editor after [session.replace(range, text)],
    missing from the sources; the text between the two positions of the
    range gives way to [t]. *)
Definition replaced (e : Editor) (r : Range) (t : jsstring) : Editor :=
  {| value := firstn (positionToIndex e (start r)) (value e) ++ t ++
              skipn (positionToIndex e (end_ r)) (value e);
     anchor := anchor e; lead := lead e |}.

(** Modelled from the spec: the editor after
    [getSelection().setSelectionRange(range)], missing from the sources; the
    selection runs from the start of the range to its end, where the cursor
    is. *)
Definition selected (e : Editor) (r : Range) : Editor :=
  {| value := value e; anchor := start r; lead := end_ r |}.

End Ace.

(** * The host document (ProseMirror) *)

(** A node type.  The source compares node types by reference; within one
    schema there is one type object per name, so the name stands for the
    reference.  [spec_selectable] is [type.spec.selectable], which a node
    spec may leave undefined. *)
Record NodeType := mkNodeType {
  type_name : string;
  spec_selectable : option bool
}.

Definition NodeType_same (a b : NodeType) : bool :=
  String.eqb (type_name a) (type_name b).

Record ProsemirrorNode := mkNode {
  type : NodeType;
  textContent : jsstring;
  nodeSize : Z;
  childCount : nat
}.

(** Truthiness of [node.type.spec.selectable]. *)
Definition selectable (n : ProsemirrorNode) : bool :=
  match spec_selectable (type n) with
  | Some b => b
  | None => false
  end.

(** Host selections, named after the ProseMirror call that makes them:
    [TextSelection.create(doc, anchor, head)],
    [TextSelection.near(doc.resolve(pos), bias)],
    [Selection.near(doc.resolve(pos), bias)] and
    [NodeSelection.create(doc, pos)].  The document each call refers to is the
    one its transaction has reached. *)
Inductive Selection :=
| TextSelection_create (anchor head : Z)
| TextSelection_near (pos bias : Z)
| Selection_near (pos bias : Z)
| NodeSelection_create (pos : Z).

Definition Selection_eqb (a b : Selection) : bool :=
  match a, b with
  | TextSelection_create x y, TextSelection_create x' y'
  | TextSelection_near x y, TextSelection_near x' y'
  | Selection_near x y, Selection_near x' y' => Z.eqb x x' && Z.eqb y y'
  | NodeSelection_create x, NodeSelection_create x' => Z.eqb x x'
  | _, _ => false
  end.

(** The calls a transaction is built from: [tr.replaceWith(a, b, content)]
    with a text node or [null] as content, [tr.delete(a, b)],
    [tr.setSelection(sel)] and [tr.scrollIntoView()]. *)
Inductive Step :=
| tr_replaceWith (a b : Z) (content : option jsstring)
| tr_delete (a b : Z)
| tr_setSelection (sel : Selection)
| tr_scrollIntoView.

Definition Transaction := list Step.

(** What the node view reads from [view.state]: [doc.nodeAt(pos)],
    [doc.resolve(pos).nodeBefore], the current selection, and whether
    [undoInputRule(state)] finds an input rule to undo. *)
Record EditorState := mkEditorState {
  doc_nodeAt : Z -> option ProsemirrorNode;
  doc_nodeBefore : Z -> option ProsemirrorNode;
  selection : Selection;
  undoableInputRule : bool
}.

(** * Options

    [lang] is the language classifier of [CodeViewOptions];
    [executeRmdChunkFn] tells whether the optional execution callback is
    there.  [rmdChunkExecution] is the optional list of executable languages
    of [EditorOptions]. *)

Record CodeViewOptions := mkCodeViewOptions {
  lang : ProsemirrorNode -> jsstring -> option jsstring;
  executeRmdChunkFn : bool
}.

Record EditorOptions := mkEditorOptions {
  rmdChunkExecution : option (list jsstring)
}.

(** * The node view *)

(** Which element holds the input focus. *)
Inductive Focus := FocusInner | FocusHost | FocusElsewhere.

(** The fields of the class, and what it reaches through them: [editor] is
    [this.chunk.editor] with its edit session, [inactive] the
    [pm-ace-editor-inactive] class of [this.dom], [toolbarDisplayed] whether
    the display style of [this.runChunkToolbar] is other than ['none'],
    [focus] where [window.document.activeElement] is, [getPos] what
    [this.getPos()] answers and [view] the state of [this.view]. *)
Record CodeBlockNodeView := mkView {
  node : ProsemirrorNode;
  updating : bool;
  escaping : bool;
  mode : jsstring;
  editor : Ace.Editor;
  inactive : bool;
  toolbarDisplayed : bool;
  focus : Focus;
  getPos : Z;
  view : EditorState;
  options : CodeViewOptions;
  editorOptions : EditorOptions
}.

(** The listeners the constructor registers on the inner editor. *)
Inductive Listener := onChangeCursor | onChange | onFocus | onBlur.

(** Calls that leave the node view, and listeners that fire inside them.
    A listener that looks at the [updating] flag is logged with the value it
    found; so is each of the two guarded calls. *)
Inductive Event :=
| SetMode (l : jsstring)
| ExecCommand (command : string)
| EditorFocus
| SessionReplace (guard : bool) (range : Ace.Range) (t : jsstring)
| SetSelectionRange (guard : bool) (range : Ace.Range)
| Fired (l : Listener) (guard : option bool)
| Dispatch (tr : Transaction)
| ViewFocus
| UndoInputRule.

(** Methods run in a state monad over the node view that also collects the
    events. *)
Definition M (A : Type) : Type :=
  CodeBlockNodeView -> A * CodeBlockNodeView * list Event.

Definition ret {A} (a : A) : M A := fun s => (a, s, []).

Definition bind {A B} (m : M A) (k : A -> M B) : M B :=
  fun s =>
    let '(a, s1, e1) := m s in
    let '(b, s2, e2) := k a s1 in
    (b, s2, e1 ++ e2).

Definition get : M CodeBlockNodeView := fun s => (s, s, []).
Definition modify (f : CodeBlockNodeView -> CodeBlockNodeView) : M unit :=
  fun s => (tt, f s, []).
Definition emit (e : Event) : M unit := fun s => (tt, s, [e]).

Definition result {A} (r : A * CodeBlockNodeView * list Event) : A := fst (fst r).
Definition after {A} (r : A * CodeBlockNodeView * list Event) : CodeBlockNodeView :=
  snd (fst r).
Definition events {A} (r : A * CodeBlockNodeView * list Event) : list Event := snd r.

Declare Scope monad_scope.
Delimit Scope monad_scope with monad.
Notation "x <- c ;; k" := (bind c (fun x => k))
  (at level 61, c at next level, right associativity) : monad_scope.
Notation "c ;; k" := (bind c (fun _ => k))
  (at level 61, right associativity) : monad_scope.
Notation "'when' b 'then' c" := (if b then c else ret tt)
  (at level 60, b at level 9, only parsing) : monad_scope.

Open Scope monad_scope.

Definition set_node (n : ProsemirrorNode) (s : CodeBlockNodeView) :=
  mkView n (updating s) (escaping s) (mode s) (editor s) (inactive s)
         (toolbarDisplayed s) (focus s) (getPos s) (view s) (options s)
         (editorOptions s).
Definition set_updating (b : bool) (s : CodeBlockNodeView) :=
  mkView (node s) b (escaping s) (mode s) (editor s) (inactive s)
         (toolbarDisplayed s) (focus s) (getPos s) (view s) (options s)
         (editorOptions s).
Definition set_escaping (b : bool) (s : CodeBlockNodeView) :=
  mkView (node s) (updating s) b (mode s) (editor s) (inactive s)
         (toolbarDisplayed s) (focus s) (getPos s) (view s) (options s)
         (editorOptions s).
Definition set_mode (m : jsstring) (s : CodeBlockNodeView) :=
  mkView (node s) (updating s) (escaping s) m (editor s) (inactive s)
         (toolbarDisplayed s) (focus s) (getPos s) (view s) (options s)
         (editorOptions s).
Definition set_editor (e : Ace.Editor) (s : CodeBlockNodeView) :=
  mkView (node s) (updating s) (escaping s) (mode s) e (inactive s)
         (toolbarDisplayed s) (focus s) (getPos s) (view s) (options s)
         (editorOptions s).
Definition set_inactive (b : bool) (s : CodeBlockNodeView) :=
  mkView (node s) (updating s) (escaping s) (mode s) (editor s) b
         (toolbarDisplayed s) (focus s) (getPos s) (view s) (options s)
         (editorOptions s).
Definition set_toolbarDisplayed (b : bool) (s : CodeBlockNodeView) :=
  mkView (node s) (updating s) (escaping s) (mode s) (editor s) (inactive s)
         b (focus s) (getPos s) (view s) (options s) (editorOptions s).
Definition set_host (st : EditorState) (pos : Z) (s : CodeBlockNodeView) :=
  mkView (node s) (updating s) (escaping s) (mode s) (editor s) (inactive s)
         (toolbarDisplayed s) (focus s) pos st (options s)
         (editorOptions s).
Definition set_focus (f : Focus) (s : CodeBlockNodeView) :=
  mkView (node s) (updating s) (escaping s) (mode s) (editor s) (inactive s)
         (toolbarDisplayed s) f (getPos s) (view s) (options s)
         (editorOptions s).

(** ** Small private methods *)

Definition getContents (s : CodeBlockNodeView) : jsstring :=
  Ace.value (editor s).

(** [this.editorOptions.rmdChunkExecution && this.options.executeRmdChunkFn];
    an array is truthy whatever it holds. *)
Definition canExecuteChunks (s : CodeBlockNodeView) : bool :=
  match rmdChunkExecution (editorOptions s) with
  | Some _ => executeRmdChunkFn (options s)
  | None => false
  end.

Definition enableChunkExecution (enable : bool) : M unit :=
  modify (set_toolbarDisplayed enable).

Definition isChunkExecutionEnabled (s : CodeBlockNodeView) : bool :=
  toolbarDisplayed s.

(** ** Calls into the collaborators that fire no listener

    A transaction handed to [view.dispatch] is recorded; what the host then
    does with it is the host's business, and the state of the host the node
    view looks at stays the one the handler found. *)

Definition chunk_setMode (l : jsstring) : M unit := emit (SetMode l).
Definition editor_execCommand (command : string) : M unit :=
  emit (ExecCommand command).
Definition view_dispatch (tr : Transaction) : M unit := emit (Dispatch tr).
Definition undoInputRule_dispatch : M unit := emit UndoInputRule.

(** ** [updateMode], [asProseMirrorSelection], [forwardSelection],
       [valueChanged] *)

(** [updateMode], with the answer of
    [a.localeCompare(b, undefined, { sensitivity: 'accent' }) === 0] given by
    [localeCompare_is0 a b]. *)
Definition updateModeWith (localeCompare_is0 : jsstring -> jsstring -> bool)
  : M unit :=
  s <- get ;;
  let lang := lang (options s) (node s) (getContents s) in
  match lang with
  | Some l =>
      when (negb (str_eq (mode s) l)) then
        (chunk_setMode l ;; modify (set_mode l))
  | None => ret tt
  end ;;
  s <- get ;;
  match lang with
  | Some l =>
      if truthy l && canExecuteChunks s then
        let found :=
          match rmdChunkExecution (editorOptions s) with
          | Some langs =>
              find (fun rmdChunkLang => localeCompare_is0 l rmdChunkLang)
                   langs
          | None => None
          end in
        let enabled :=
          match found with Some x => truthy x | None => false end in
        enableChunkExecution enabled
      else enableChunkExecution false
  | None => enableChunkExecution false
  end.

Definition updateMode : M unit :=
  updateModeWith Intl.localeCompare_accent_is0.

Definition asProseMirrorSelection (s : CodeBlockNodeView) : Selection :=
  let offset := (getPos s + 1)%Z in
  let range := Ace.getRange (editor s) in
  let anchor :=
    (Z.of_nat (Ace.positionToIndex (editor s) (Ace.start range)) + offset)%Z in
  let head :=
    (Z.of_nat (Ace.positionToIndex (editor s) (Ace.end_ range)) + offset)%Z in
  TextSelection_create anchor head.

Definition hasFocus (s : CodeBlockNodeView) : bool :=
  match focus s with FocusInner => true | _ => false end.

Definition forwardSelection : M unit :=
  s <- get ;;
  if negb (hasFocus s) then ret tt
  else
    let sel := asProseMirrorSelection s in
    when (negb (Selection_eqb sel (selection (view s)))) then
      view_dispatch [tr_setSelection sel].

Definition valueChanged : M unit :=
  s <- get ;;
  match computeChange (textContent (node s)) (getContents s) with
  | Some change =>
      let start := (getPos s + 1)%Z in
      view_dispatch
        [tr_replaceWith (start + Z.of_nat (from change))
                        (start + Z.of_nat (to change))
                        (if truthy (text change) then Some (text change)
                         else None)]
  | None => ret tt
  end ;;
  updateMode.

(** ** The listeners registered by the constructor *)

Definition listener (l : Listener) : M unit :=
  match l with
  | onChangeCursor =>
      s <- get ;;
      emit (Fired onChangeCursor (Some (updating s))) ;;
      when (negb (updating s)) then forwardSelection
  | onChange =>
      s <- get ;;
      emit (Fired onChange (Some (updating s))) ;;
      when (negb (updating s)) then (valueChanged ;; forwardSelection)
  | onFocus =>
      emit (Fired onFocus None) ;;
      modify (set_inactive false) ;;
      forwardSelection
  | onBlur =>
      emit (Fired onBlur None) ;;
      modify (set_inactive true)
  end.

(** ** Calls into the collaborators that fire listeners

    The inner editor reports a buffer mutation to the [change] listener and
    a selection change to the [changeCursor] listener before the call
    returns; moving the input focus fires [focus] and [blur]. *)

Definition editSession_replace (range : Ace.Range) (t : jsstring) : M unit :=
  s <- get ;;
  emit (SessionReplace (updating s) range t) ;;
  modify (set_editor (Ace.replaced (editor s) range t)) ;;
  listener onChange.

Definition selection_setSelectionRange (range : Ace.Range) : M unit :=
  s <- get ;;
  emit (SetSelectionRange (updating s) range) ;;
  modify (set_editor (Ace.selected (editor s) range)) ;;
  listener onChangeCursor.

Definition editor_focus : M unit :=
  s <- get ;;
  emit EditorFocus ;;
  match focus s with
  | FocusInner => ret tt
  | _ => modify (set_focus FocusInner) ;; listener onFocus
  end.

Definition view_focus : M unit :=
  s <- get ;;
  emit ViewFocus ;;
  match focus s with
  | FocusInner => modify (set_focus FocusHost) ;; listener onBlur
  | _ => modify (set_focus FocusHost)
  end.

(** ** The [NodeView] interface *)

Definition update (newNode : ProsemirrorNode) : M bool :=
  s <- get ;;
  if negb (NodeType_same (type newNode) (type (node s))) then ret false
  else
    modify (set_node newNode) ;;
    updateMode ;;
    s <- get ;;
    match computeChange (Ace.value (editor s)) (textContent newNode) with
    | Some change =>
        modify (set_updating true) ;;
        let range :=
          Ace.fromPoints (Ace.indexToPosition (editor s) (from change))
                         (Ace.indexToPosition (editor s) (to change)) in
        editSession_replace range (text change) ;;
        modify (set_updating false)
    | None => ret tt
    end ;;
    ret true.

Definition setSelection (anchor head : nat) : M unit :=
  s <- get ;;
  when (negb (escaping s)) then editor_focus ;;
  modify (set_updating true) ;;
  s <- get ;;
  let range :=
    Ace.fromPoints (Ace.indexToPosition (editor s) anchor)
                   (Ace.indexToPosition (editor s) head) in
  selection_setSelectionRange range ;;
  modify (set_updating false).

Definition selectNode : M unit := editor_focus.

Definition stopEvent : bool := true.

(** ** Boundary navigation *)

Definition backspaceMaybeDeleteNode : M unit :=
  s <- get ;;
  if Nat.eqb (childCount (node s)) 0 then
    if undoableInputRule (view s) then
      undoInputRule_dispatch ;;
      view_focus
    else
      view_dispatch
        [tr_delete (getPos s) (getPos s + nodeSize (node s))%Z;
         tr_setSelection (TextSelection_near (getPos s) (-1))] ;;
      view_focus
  else editor_execCommand "backspace".

(** The test at the head of [arrowMaybeEscape]: true when the movement
    stays inside the inner editor. *)
Definition staysInside (unit_ : string) (dir : Z) (s : CodeBlockNodeView) : bool :=
  let pos := Ace.getCursorPosition (editor s) in
  let lastrow := (Z.of_nat (Ace.getLength (editor s)) - 1)%Z in
  negb (Ace.selectionIsEmpty (editor s)) ||
  negb (Z.of_nat (Ace.row pos) =? (if dir <? 0 then 0 else lastrow))%Z ||
  (String.eqb unit_ "char" &&
   negb (Ace.column pos =?
           (if (dir <? 0)%Z then 0
            else List.length (Ace.getLine (editor s) (Ace.row pos))))%nat).

Definition prevNodeSelectable (s : CodeBlockNodeView) : bool :=
  match doc_nodeBefore (view s) (getPos s) with
  | Some nodeBefore => selectable nodeBefore
  | None => false
  end.

Definition nextNodeSelectable (s : CodeBlockNodeView) : bool :=
  match doc_nodeAt (view s) (getPos s + nodeSize (node s))%Z with
  | Some nextNode => selectable nextNode
  | None => false
  end.

(** The selection [arrowMaybeEscape] settles on once the movement leaves the
    editor, if any. *)
Definition escapeSelection (dir : Z) (s : CodeBlockNodeView) : option Selection :=
  if (dir <? 0)%Z && prevNodeSelectable s then
    match doc_nodeBefore (view s) (getPos s) with
    | Some nodeBefore =>
        Some (NodeSelection_create (getPos s - nodeSize nodeBefore)%Z)
    | None => None
    end
  else if (dir >=? 0)%Z && nextNodeSelectable s then
    Some (NodeSelection_create (getPos s + nodeSize (node s))%Z)
  else
    let targetPos :=
      (getPos s + (if dir <? 0 then 0 else nodeSize (node s)))%Z in
    match doc_nodeAt (view s) targetPos with
    | Some _ => Some (Selection_near targetPos dir)
    | None => None
    end.

Definition arrowMaybeEscape (unit_ : string) (dir : Z) (command : string) : M unit :=
  s <- get ;;
  if staysInside unit_ dir s then editor_execCommand command
  else
    modify (set_escaping true) ;;
    view_focus ;;
    s <- get ;;
    match escapeSelection dir s with
    | Some sel => view_dispatch [tr_setSelection sel; tr_scrollIntoView]
    | None => ret tt
    end ;;
    view_focus ;;
    modify (set_escaping false).

(** ** The life of a node view

    The constructor stores its arguments, fills the inner editor with the
    node's text, collapses the selection, marks the element inactive, builds
    the toolbar, updates the mode and only then lowers the [updating] flag.
    [f] is where the input focus is at that time. *)
Definition construct (n : ProsemirrorNode) (st : EditorState) (pos : Z)
           (f : Focus) (eo : EditorOptions) (o : CodeViewOptions)
  : CodeBlockNodeView * list Event :=
  let e0 := {| Ace.value := textContent n;
               Ace.anchor := Ace.origin; Ace.lead := Ace.origin |} in
  let cursor := Ace.indexToPosition e0 (List.length (textContent n)) in
  let s0 :=
    {| node := n; updating := false; escaping := false; mode := [];
       editor := {| Ace.value := textContent n;
                    Ace.anchor := cursor; Ace.lead := cursor |};
       inactive := true; toolbarDisplayed := true; focus := f;
       getPos := pos; view := st; options := o; editorOptions := eo |} in
  let r := (updateMode ;; modify (set_updating false)) s0 in
  (after r, events r).

(** Everything that can happen to a node view once it is built: the host
    calls one of its [NodeView] methods, a key bound by the constructor is
    pressed, the user edits the buffer or moves the inner selection (the
    editor then fires [change] or [changeCursor]), the focus enters or leaves
    the inner editor, or the host document moves on. *)
Inductive Call :=
| call_update (newNode : ProsemirrorNode)
| call_setSelection (anchor head : nat)
| call_selectNode
| key_arrow (unit_ : string) (dir : Z) (command : string)
| key_backspace
| user_edit (e : Ace.Editor)
| user_select (a c : Ace.Point)
| user_focus
| user_blur
| host_moved (st : EditorState) (pos : Z).

Definition perform (c : Call) : M unit :=
  match c with
  | call_update newNode => _ <- update newNode ;; ret tt
  | call_setSelection anchor head => setSelection anchor head
  | call_selectNode => selectNode
  | key_arrow unit_ dir command => arrowMaybeEscape unit_ dir command
  | key_backspace => backspaceMaybeDeleteNode
  | user_edit e => modify (set_editor e) ;; listener onChange
  | user_select a c =>
      s <- get ;;
      modify (set_editor {| Ace.value := Ace.value (editor s);
                            Ace.anchor := a; Ace.lead := c |}) ;;
      listener onChangeCursor
  | user_focus => editor_focus
  | user_blur =>
      s <- get ;;
      match focus s with
      | FocusInner => modify (set_focus FocusElsewhere) ;; listener onBlur
      | _ => ret tt
      end
  | host_moved st pos => modify (set_host st pos)
  end.

(** The states a node view can be in between two calls. *)
Inductive reachable : CodeBlockNodeView -> Prop :=
| reachable_new n st pos f eo o :
    reachable (fst (construct n st pos f eo o))
| reachable_call s c :
    reachable s -> reachable (after (perform c s)).

(** ** Reading an event log *)

(** The transactions handed to [view.dispatch], in order. *)
Definition dispatched (evs : list Event) : list Transaction :=
  flat_map (fun e => match e with Dispatch tr => [tr] | _ => [] end) evs.

(** The language tags handed to [chunk.setMode], in order. *)
Definition modesSet (evs : list Event) : list jsstring :=
  flat_map (fun e => match e with SetMode l => [l] | _ => [] end) evs.

(** A cross-sync apply: one of the two calls the node view makes with the
    [updating] flag raised. *)
Definition isApply (e : Event) : bool :=
  match e with
  | SessionReplace _ _ _ | SetSelectionRange _ _ => true
  | _ => false
  end.

(** An event is guarded when it is neither an apply made with the flag down
    nor a [change] or [changeCursor] listener that found the flag down. *)
Definition guardedEvent (e : Event) : bool :=
  match e with
  | SessionReplace g _ _ | SetSelectionRange g _ => g
  | Fired _ (Some g) => g
  | _ => true
  end.

(** * The diff engine, said declaratively

    [commonPrefix a b] is the number of leading code units [a] and [b]
    share, [commonSuffix a b] the number of trailing ones. *)

Fixpoint commonPrefix (a b : jsstring) : nat :=
  match a, b with
  | x :: a', y :: b' => if N.eqb x y then S (commonPrefix a' b') else 0
  | _, _ => 0
  end.

Definition commonSuffix (a b : jsstring) : nat :=
  commonPrefix (rev a) (rev b).

(** * The toolbar actions

    [executeChunk] and [executePreviousChunks] are the click handlers of the
    two toolbar buttons.  They change nothing in the node view; what matters
    is what they hand to the callback.  [rmdChunk],
    [previousExecutableRmdChunks] and [mergeRmdChunks] come from
    [api/rmd], which is not among the sources, and are taken as
    parameters. *)

(** What a click does: nothing, a call of the execution callback on a
    chunk, or a call of a callback that is not there (a [TypeError]). *)
Inductive Execution (C : Type) : Type :=
| NothingExecuted
| Executed (chunk : C)
| CalledUndefined.

Arguments NothingExecuted {C}.
Arguments Executed {C} chunk.
Arguments CalledUndefined {C}.

(** [this.options.executeRmdChunkFn!(chunk)] *)
Definition callExecuteRmdChunkFn {C} (s : CodeBlockNodeView) (chunk : C)
  : Execution C :=
  if executeRmdChunkFn (options s) then Executed chunk else CalledUndefined.

Definition executeChunk {C} (rmdChunk : jsstring -> option C)
           (s : CodeBlockNodeView) : Execution C :=
  if isChunkExecutionEnabled s then
    match rmdChunk (textContent (node s)) with
    | Some chunk => callExecuteRmdChunkFn s chunk
    | None => NothingExecuted
    end
  else NothingExecuted.

Definition executePreviousChunks {C}
           (previousExecutableRmdChunks : EditorState -> Z -> list C)
           (mergeRmdChunks : list C -> option C)
           (s : CodeBlockNodeView) : Execution C :=
  if isChunkExecutionEnabled s then
    let prevChunks := previousExecutableRmdChunks (view s) (getPos s) in
    match mergeRmdChunks prevChunks with
    | Some mergedChunk => callExecuteRmdChunkFn s mergedChunk
    | None => NothingExecuted
    end
  else NothingExecuted.

(** The events [update] may leave: a mode change, the replacement in the
    inner buffer, and the [change] listener the replacement fires. *)
Definition updateEvent (e : Event) : bool :=
  match e with
  | SetMode _ | SessionReplace _ _ _ | Fired onChange _ => true
  | _ => false
  end.

(** ** Relations between the state before and after a method *)

(** [m] takes every state to one related to it by [R]. *)
Definition keeps (R : CodeBlockNodeView -> CodeBlockNodeView -> Prop)
           {A} (m : M A) : Prop :=
  forall s, R s (after (m s)).

Definition sameEscaping (s s' : CodeBlockNodeView) : Prop :=
  escaping s' = escaping s.

(** The toolbar is on display only when chunks can be executed. *)
Definition toolbarSound (s : CodeBlockNodeView) : Prop :=
  toolbarDisplayed s = true -> canExecuteChunks s = true.

(** The options are the same, and the toolbar is as it was or soundly on
    display. *)
Definition sameConfiguration (s s' : CodeBlockNodeView) : Prop :=
  options s' = options s /\ editorOptions s' = editorOptions s /\
  (toolbarDisplayed s' = toolbarDisplayed s \/ toolbarSound s').

(** * Sample documents and bindings

    Small concrete hosts on which the methods can be run. *)

Module Sample.

Definition code_block : NodeType :=
  {| type_name := "code_block"; spec_selectable := None |}.

Definition horizontal_rule : NodeType :=
  {| type_name := "horizontal_rule"; spec_selectable := Some true |}.

(** A code block holding [t]: one text child unless [t] is empty, and one
    position for each boundary. *)
Definition codeNode (t : jsstring) : ProsemirrorNode :=
  {| type := code_block; textContent := t;
     nodeSize := Z.of_nat (List.length t) + 2;
     childCount := if truthy t then 1 else 0 |}.

Definition ruleNode : ProsemirrorNode :=
  {| type := horizontal_rule; textContent := []; nodeSize := 1;
     childCount := 0 |}.

(** A document made of top-level blocks laid out from position [p]. *)
Fixpoint nodeAt_in (blocks : list ProsemirrorNode) (p pos : Z)
  : option ProsemirrorNode :=
  match blocks with
  | [] => None
  | n :: rest =>
      if (pos =? p)%Z then Some n else nodeAt_in rest (p + nodeSize n) pos
  end.

Fixpoint nodeBefore_in (blocks : list ProsemirrorNode) (p pos : Z)
  : option ProsemirrorNode :=
  match blocks with
  | [] => None
  | n :: rest =>
      if (pos =? p + nodeSize n)%Z then Some n
      else nodeBefore_in rest (p + nodeSize n) pos
  end.

Definition stateOf (blocks : list ProsemirrorNode) (sel : Selection)
           (undoable : bool) : EditorState :=
  {| doc_nodeAt := nodeAt_in blocks 0;
     doc_nodeBefore := nodeBefore_in blocks 0;
     selection := sel;
     undoableInputRule := undoable |}.

Definition plainOptions : CodeViewOptions :=
  {| lang := fun _ _ => None; executeRmdChunkFn := false |}.

Definition noExecution : EditorOptions := {| rmdChunkExecution := None |}.

(** Options whose classifier always answers [l], with an execution
    callback. *)
Definition langOptions (l : jsstring) : CodeViewOptions :=
  {| lang := fun _ _ => Some l; executeRmdChunkFn := true |}.

(** A focused binding of the code block [codeNode t] placed at [pos] in the
    host [st], its buffer in sync, its selection from [a] to [c]. *)
Definition binding (t : jsstring) (a c : Ace.Point) (pos : Z)
           (st : EditorState) (o : CodeViewOptions) (eo : EditorOptions)
  : CodeBlockNodeView :=
  {| node := codeNode t; updating := false; escaping := false; mode := [];
     editor := {| Ace.value := t; Ace.anchor := a; Ace.lead := c |};
     inactive := false; toolbarDisplayed := false; focus := FocusInner;
     getPos := pos; view := st; options := o; editorOptions := eo |}.

End Sample.

(** * Properties of the diff engine *)

Section DiffEngine.

Lemma num_eq_true x y :
  num_eq x y = true -> exists c, x = Some c /\ y = Some c.
Proof.
  destruct x as [a|], y as [b|]; simpl; try discriminate.
  intros H. apply N.eqb_eq in H. subst. eauto.
Qed.

Lemma str_eq_true a b : str_eq a b = true <-> a = b.
Proof.
  unfold str_eq. destruct (list_eq_dec N.eq_dec a b); split; congruence.
Qed.

Lemma str_eq_false a b : str_eq a b = false <-> a <> b.
Proof.
  unfold str_eq. destruct (list_eq_dec N.eq_dec a b); split; congruence.
Qed.

Lemma firstn_snoc (s : jsstring) i c :
  charCodeAt s i = Some c -> firstn (S i) s = firstn i s ++ [c].
Proof.
  unfold charCodeAt. revert i. induction s as [|x s IH]; intros [|i] H;
    simpl in *; try discriminate.
  - congruence.
  - rewrite (IH i H). reflexivity.
Qed.

Lemma skipn_cons (s : jsstring) i c :
  charCodeAt s i = Some c -> skipn i s = c :: skipn (S i) s.
Proof.
  unfold charCodeAt. revert i. induction s as [|x s IH]; intros [|i] H;
    simpl in *; try discriminate.
  - congruence.
  - apply (IH i H).
Qed.

Lemma charCodeAt_lt (s : jsstring) i c :
  charCodeAt s i = Some c -> i < List.length s.
Proof.
  unfold charCodeAt. intros H. apply nth_error_Some. congruence.
Qed.

(** The forward scan stops inside both strings, on a common prefix. *)
Lemma scanForward_spec oldVal newVal oldEnd start :
  start <= oldEnd ->
  start <= List.length newVal ->
  firstn start oldVal = firstn start newVal ->
  let r := scanForward oldVal newVal oldEnd start in
  start <= r /\ r <= oldEnd /\ r <= List.length newVal /\
  firstn r oldVal = firstn r newVal.
Proof.
  funelim (scanForward oldVal newVal oldEnd start); intros Hle Hnew Hpre.
  - repeat split; auto.
  - match goal with
    | Hq : num_eq _ _ = true |- _ =>
        destruct (num_eq_true _ _ Hq) as (c & Ho & Hn)
    end.
    pose proof (charCodeAt_lt _ _ _ Hn) as Hlt.
    assert (Hpre' : firstn (S start) oldVal = firstn (S start) newVal).
    { rewrite (firstn_snoc _ _ _ Ho), (firstn_snoc _ _ _ Hn), Hpre. reflexivity. }
    match goal with
    | IH : _ -> _ -> _ -> _ |- _ =>
        specialize (IH ltac:(lia) ltac:(lia) Hpre'); cbn zeta in IH;
        destruct IH as (? & ? & ? & ?)
    end.
    repeat split; auto; lia.
  - repeat split; auto.
Qed.

(** The backward scan stops at or after [start] in both strings, on a
    common suffix, having moved both ends by the same amount. *)
Lemma scanBackward_spec oldVal newVal start oldEnd newEnd :
  start <= oldEnd -> start <= newEnd ->
  skipn oldEnd oldVal = skipn newEnd newVal ->
  let r := scanBackward oldVal newVal start oldEnd newEnd in
  start <= fst r /\ fst r <= oldEnd /\ start <= snd r /\ snd r <= newEnd /\
  skipn (fst r) oldVal = skipn (snd r) newVal.
Proof.
  funelim (scanBackward oldVal newVal start oldEnd newEnd);
    intros Hold Hnew Hsuf; cbn [fst snd].
  all: try (repeat split; auto; lia).
  match goal with
  | Hq : num_eq _ _ = true |- _ =>
      destruct (num_eq_true _ _ Hq) as (c & Ho & Hn)
  end.
  assert (Hsuf' : skipn (oldEnd - 1) oldVal = skipn (newEnd - 1) newVal).
  { rewrite (skipn_cons _ _ _ Ho), (skipn_cons _ _ _ Hn).
    replace (S (oldEnd - 1)) with oldEnd by lia.
    replace (S (newEnd - 1)) with newEnd by lia.
    rewrite Hsuf. reflexivity. }
  match goal with
  | IH : _ -> _ -> _ -> _ |- _ =>
      specialize (IH ltac:(lia) ltac:(lia) Hsuf'); cbn zeta in IH;
      destruct IH as (? & ? & ? & ? & ?)
  end.
  repeat split; auto; lia.
Qed.

Lemma slice_glue (s : jsstring) b e :
  b <= e -> firstn b s ++ slice s b e ++ skipn e s = s.
Proof.
  intros Hbe. unfold slice.
  replace (skipn e s) with (skipn (e - b) (skipn b s))
    by (rewrite skipn_skipn; f_equal; lia).
  rewrite firstn_skipn. apply firstn_skipn.
Qed.

(** Everything the two scans establish about a returned change. *)
Lemma computeChange_Some oldVal newVal c :
  computeChange oldVal newVal = Some c ->
  oldVal <> newVal /\
  from c <= to c /\ to c <= List.length oldVal /\
  exists newEnd,
    from c <= newEnd /\ newEnd <= List.length newVal /\
    text c = slice newVal (from c) newEnd /\
    firstn (from c) oldVal = firstn (from c) newVal /\
    skipn (to c) oldVal = skipn newEnd newVal.
Proof.
  unfold computeChange. destruct (str_eq oldVal newVal) eqn:E; [discriminate|].
  apply str_eq_false in E.
  destruct (scanForward_spec oldVal newVal (List.length oldVal) 0
              ltac:(lia) ltac:(lia) eq_refl) as (_ & Hf1 & Hf2 & Hf3).
  set (start := scanForward oldVal newVal (List.length oldVal) 0) in *.
  assert (Hs : skipn (List.length oldVal) oldVal
               = skipn (List.length newVal) newVal)
    by (rewrite !skipn_all; reflexivity).
  destruct (scanBackward_spec oldVal newVal start
              (List.length oldVal) (List.length newVal) Hf1 Hf2 Hs)
    as (Hb1 & Hb2 & Hb3 & Hb4 & Hb5).
  destruct (scanBackward oldVal newVal start _ _) as [oldEnd newEnd].
  cbn [fst snd] in *. intros [= <-]. cbn [from to text].
  repeat split; auto. exists newEnd. repeat split; auto.
Qed.

Lemma computeChange_None oldVal newVal :
  computeChange oldVal newVal = None <-> oldVal = newVal.
Proof.
  unfold computeChange. destruct (str_eq oldVal newVal) eqn:E.
  - apply str_eq_true in E. tauto.
  - apply str_eq_false in E.
    destruct (scanBackward _ _ _ _ _). split; [discriminate | contradiction].
Qed.

Lemma computeChange_patch oldVal newVal c :
  computeChange oldVal newVal = Some c -> replaceRange oldVal c = newVal.
Proof.
  intros H. apply computeChange_Some in H.
  destruct H as (_ & _ & _ & newEnd & Hle & _ & Ht & Hp & Hs).
  unfold replaceRange. rewrite Ht, Hp, Hs. apply slice_glue, Hle.
Qed.

(** C1. For all strings [a] and [b], [computeChange a b] is null exactly
    when [a] equals [b]; a change it returns, applied to [a] by replacing
    the range [[from, to)] with [text], gives [b], and computing the change
    from the patched string to [b] gives null again. *)
Theorem computeChange_roundtrip (a b : jsstring) :
  (computeChange a b = None <-> a = b) /\
  match computeChange a b with
  | None => a = b
  | Some c =>
      a <> b /\ replaceRange a c = b /\
      computeChange (replaceRange a c) b = None
  end.
Proof.
  split; [apply computeChange_None|].
  destruct (computeChange a b) as [c|] eqn:E.
  - pose proof (computeChange_patch _ _ _ E) as Hp.
    apply computeChange_Some in E. destruct E as (Hne & _).
    repeat split; auto. apply computeChange_None, Hp.
  - apply computeChange_None, E.
Qed.

(** C9. The three worked examples of the diff engine. *)
Theorem computeChange_examples :
  computeChange (lit "abcde") (lit "abXde")
    = Some {| from := 2; to := 3; text := lit "X" |} /\
  computeChange (lit "abc") (lit "xyz")
    = Some {| from := 0; to := 3; text := lit "xyz" |} /\
  computeChange (lit "ab") (lit "ab") = None.
Proof. repeat split; vm_compute; reflexivity. Qed.

(** C10. For distinct strings the returned change is well formed and not
    trivial: [from <= to <= length oldVal], the text is the slice of
    [newVal] from [from] to some [newEnd] with
    [from <= newEnd <= length newVal], and the change either removes
    something or inserts something. *)
Theorem computeChange_wellformed (oldVal newVal : jsstring) :
  oldVal <> newVal ->
  exists c,
    computeChange oldVal newVal = Some c /\
    from c <= to c /\ to c <= List.length oldVal /\
    (exists newEnd,
        from c <= newEnd /\ newEnd <= List.length newVal /\
        text c = slice newVal (from c) newEnd) /\
    (from c < to c \/ text c <> []).
Proof.
  intros Hne.
  destruct (computeChange oldVal newVal) as [c|] eqn:E;
    [|apply computeChange_None in E; contradiction].
  exists c. pose proof (computeChange_patch _ _ _ E) as Hp.
  apply computeChange_Some in E.
  destruct E as (_ & Hft & Hto & newEnd & H1 & H2 & Ht & _ & _).
  repeat split; auto.
  - exists newEnd. auto.
  - destruct (Nat.eq_dec (from c) (to c)) as [Heq|]; [|left; lia].
    right. intros Hnil. apply Hne. rewrite <- Hp. unfold replaceRange.
    rewrite Hnil, <- Heq. simpl. symmetry. apply firstn_skipn.
Qed.

Lemma computeChange_wellformed_witness :
  exists c,
    computeChange (lit "abcde") (lit "abXde") = Some c /\
    from c <= to c /\ to c <= 5 /\
    (exists newEnd,
        from c <= newEnd /\ newEnd <= 5 /\
        text c = slice (lit "abXde") (from c) newEnd) /\
    (from c < to c \/ text c <> []).
Proof.
  apply (computeChange_wellformed (lit "abcde") (lit "abXde")).
  vm_compute. discriminate.
Defined.

(** ** The scans against the declarative prefix and suffix *)

Lemma commonPrefix_nil_r a : commonPrefix a [] = 0.
Proof. destruct a; reflexivity. Qed.

Lemma commonPrefix_comm a b : commonPrefix a b = commonPrefix b a.
Proof.
  revert b. induction a as [|x a IH]; intros [|y b]; simpl; auto.
  rewrite (N.eqb_sym y x). destruct (N.eqb x y); auto.
Qed.

Lemma commonPrefix_le a b :
  commonPrefix a b <= List.length a /\ commonPrefix a b <= List.length b.
Proof.
  revert b. induction a as [|x a IH]; intros [|y b]; simpl; try lia.
  destruct (N.eqb x y); simpl; [|lia]. specialize (IH b). lia.
Qed.

Lemma charCodeAt_some (s : jsstring) i :
  i < List.length s -> exists c, charCodeAt s i = Some c.
Proof.
  intros H. unfold charCodeAt.
  destruct (nth_error s i) eqn:E; [eauto|].
  apply nth_error_None in E. lia.
Qed.

Lemma scanForward_commonPrefix oldVal newVal oldEnd start :
  oldEnd = List.length oldVal ->
  scanForward oldVal newVal oldEnd start
  = start + commonPrefix (skipn start oldVal) (skipn start newVal).
Proof.
  funelim (scanForward oldVal newVal oldEnd start); intros Hlen.
  - rewrite skipn_all2 by lia. cbn [commonPrefix rev app]. lia.
  - match goal with
    | Hq : num_eq _ _ = true |- _ =>
        destruct (num_eq_true _ _ Hq) as (c & Ho & Hn)
    end.
    rewrite (skipn_cons _ _ _ Ho), (skipn_cons _ _ _ Hn). cbn [commonPrefix rev app].
    rewrite N.eqb_refl.
    match goal with IH : _ -> scanForward _ _ _ _ = _ |- _ => rewrite (IH Hlen) end.
    lia.
  - subst oldEnd.
    destruct (charCodeAt_some oldVal start ltac:(lia)) as (x & Ho).
    rewrite (skipn_cons _ _ _ Ho).
    destruct (charCodeAt newVal start) as [y|] eqn:Hn.
    + rewrite (skipn_cons _ _ _ Hn). cbn [commonPrefix rev app].
      match goal with
      | Hq : num_eq _ _ = false |- _ => rewrite Ho in Hq; simpl in Hq; rewrite Hq
      end.
      lia.
    + unfold charCodeAt in Hn. apply nth_error_None in Hn.
      rewrite (skipn_all2 newVal) by lia. cbn [commonPrefix rev app]. lia.
Qed.

(** The part of [s] between the offsets [b] and [e]. *)
Lemma segment_snoc (s : jsstring) b e c :
  b < e -> charCodeAt s (e - 1) = Some c ->
  rev (skipn b (firstn e s)) = c :: rev (skipn b (firstn (e - 1) s)).
Proof.
  intros Hbe Hc.
  pose proof (charCodeAt_lt _ _ _ Hc) as Hlt.
  replace (firstn e s) with (firstn (e - 1) s ++ [c]).
  - rewrite skipn_app, length_firstn.
    replace (b - Nat.min (e - 1) (List.length s)) with 0 by lia.
    cbn [commonPrefix rev app]. rewrite rev_app_distr. reflexivity.
  - rewrite <- (firstn_snoc _ _ _ Hc). f_equal. lia.
Qed.

Lemma scanBackward_commonSuffix oldVal newVal start oldEnd newEnd :
  oldEnd <= List.length oldVal -> newEnd <= List.length newVal ->
  let k := commonSuffix (skipn start (firstn oldEnd oldVal))
                        (skipn start (firstn newEnd newVal)) in
  scanBackward oldVal newVal start oldEnd newEnd = (oldEnd - k, newEnd - k).
Proof.
  unfold commonSuffix.
  funelim (scanBackward oldVal newVal start oldEnd newEnd);
    intros Hold Hnew; cbn zeta.
  - rewrite (skipn_all2 (firstn oldEnd oldVal))
      by (rewrite length_firstn; lia).
    cbn [commonPrefix rev app]. rewrite !Nat.sub_0_r. reflexivity.
  - rewrite (skipn_all2 (firstn newEnd newVal))
      by (rewrite length_firstn; lia).
    cbn [commonPrefix rev app]. rewrite commonPrefix_nil_r, !Nat.sub_0_r. reflexivity.
  - match goal with
    | Hq : num_eq _ _ = true |- _ =>
        destruct (num_eq_true _ _ Hq) as (c & Ho & Hn)
    end.
    rewrite (segment_snoc oldVal start oldEnd c) by assumption.
    rewrite (segment_snoc newVal start newEnd c) by assumption.
    cbn [commonPrefix rev app]. rewrite N.eqb_refl.
    match goal with
    | IH : _ -> _ -> scanBackward _ _ _ _ _ = _ |- _ =>
        rewrite IH by lia
    end.
    f_equal; lia.
  - destruct (charCodeAt_some oldVal (oldEnd - 1) ltac:(lia)) as (x & Ho).
    destruct (charCodeAt_some newVal (newEnd - 1) ltac:(lia)) as (y & Hn).
    rewrite (segment_snoc oldVal start oldEnd x) by assumption.
    rewrite (segment_snoc newVal start newEnd y) by assumption.
    cbn [commonPrefix rev app].
    match goal with
    | Hq : num_eq _ _ = false |- _ =>
        rewrite Ho, Hn in Hq; simpl in Hq; rewrite Hq
    end.
    rewrite !Nat.sub_0_r. reflexivity.
Qed.

(** [computeChange] on distinct strings, in closed form. *)
Lemma computeChange_closed oldVal newVal :
  oldVal <> newVal ->
  let p := commonPrefix oldVal newVal in
  let q := commonSuffix (skipn p oldVal) (skipn p newVal) in
  computeChange oldVal newVal
  = Some {| from := p; to := List.length oldVal - q;
            text := slice newVal p (List.length newVal - q) |}.
Proof.
  intros Hne. cbn zeta. unfold computeChange.
  apply str_eq_false in Hne. rewrite Hne.
  rewrite (scanForward_commonPrefix oldVal newVal _ 0 eq_refl). simpl.
  rewrite scanBackward_commonSuffix by lia. cbn zeta.
  rewrite !firstn_all. reflexivity.
Qed.

(** X1. [computeChange] is prefix and suffix trimming: on distinct strings
    [from] is the length of their common prefix, the part of [oldVal] after
    [to] is the common suffix of what remains once that prefix is taken off
    both strings, and [text] is what is left of [newVal] between the two. *)
Theorem computeChange_trims_common_ends (oldVal newVal : jsstring) :
  match computeChange oldVal newVal with
  | None => oldVal = newVal
  | Some c =>
      let p := commonPrefix oldVal newVal in
      let q := commonSuffix (skipn p oldVal) (skipn p newVal) in
      from c = p /\
      to c = List.length oldVal - q /\
      text c = slice newVal p (List.length newVal - q)
  end.
Proof.
  destruct (list_eq_dec N.eq_dec oldVal newVal) as [E|E].
  - apply computeChange_None in E. rewrite E.
    apply computeChange_None, E.
  - rewrite (computeChange_closed _ _ E). cbn zeta. simpl. auto.
Qed.

Lemma commonSuffix_comm a b : commonSuffix a b = commonSuffix b a.
Proof. apply commonPrefix_comm. Qed.

Lemma commonSuffix_le a b :
  commonSuffix a b <= List.length a /\ commonSuffix a b <= List.length b.
Proof.
  unfold commonSuffix.
  pose proof (commonPrefix_le (rev a) (rev b)) as H.
  rewrite !length_rev in H. exact H.
Qed.

(** The lengths on both sides of a computed change. *)
Lemma computeChange_lengths oldVal newVal c :
  computeChange oldVal newVal = Some c ->
  let p := commonPrefix oldVal newVal in
  let q := commonSuffix (skipn p oldVal) (skipn p newVal) in
  from c = p /\ to c = List.length oldVal - q /\
  List.length (text c) = List.length newVal - q - p /\
  p + q <= List.length oldVal /\ p + q <= List.length newVal.
Proof.
  intros H. cbn zeta.
  assert (Hne : oldVal <> newVal).
  { intros E. apply computeChange_None in E. congruence. }
  rewrite (computeChange_closed _ _ Hne) in H. cbn zeta in H.
  injection H as <-. cbn [from to text].
  pose proof (commonPrefix_le oldVal newVal) as (P1 & P2).
  pose proof (commonSuffix_le
                (skipn (commonPrefix oldVal newVal) oldVal)
                (skipn (commonPrefix oldVal newVal) newVal)) as (Q1 & Q2).
  rewrite !length_skipn in Q1, Q2.
  unfold slice. rewrite length_firstn, length_skipn.
  repeat split; lia.
Qed.

(** X2. The change computed in the opposite direction is the inverse
    change: it starts at the same offset, covers exactly the text the first
    change put in, and puts back the text the first change took out. *)
Theorem computeChange_inverse (oldVal newVal : jsstring) (c : Change) :
  computeChange oldVal newVal = Some c ->
  computeChange newVal oldVal
  = Some {| from := from c;
            to := from c + List.length (text c);
            text := slice oldVal (from c) (to c) |}.
Proof.
  intros H.
  assert (Hne : newVal <> oldVal).
  { intros E. symmetry in E. apply computeChange_None in E. congruence. }
  destruct (computeChange_lengths _ _ _ H) as (Hf & Ht & Hl & B1 & B2).
  rewrite (computeChange_closed _ _ Hne). cbn zeta.
  rewrite (commonPrefix_comm newVal oldVal).
  rewrite (commonSuffix_comm (skipn _ newVal) (skipn _ oldVal)).
  rewrite Hf, Ht, Hl. f_equal. f_equal. lia.
Qed.

Lemma computeChange_inverse_witness :
  computeChange (lit "abXde") (lit "abcde")
  = Some {| from := 2; to := 2 + 1; text := slice (lit "abcde") 2 3 |}.
Proof.
  apply (computeChange_inverse (lit "abcde") (lit "abXde")
           {| from := 2; to := 3; text := lit "X" |}).
  vm_compute. reflexivity.
Defined.

(** ** Single-range replacements *)

Lemma commonPrefix_ge a b m :
  m <= List.length a -> firstn m a = firstn m b -> m <= commonPrefix a b
                                                   \/ List.length b < m.
Proof.
  revert a b. induction m as [|m IH]; intros a b Hm Hf; [left; lia|].
  destruct a as [|x a]; [simpl in Hm; lia|].
  destruct b as [|y b]; [right; simpl; lia|].
  simpl in Hf. injection Hf as -> Hf'. simpl. rewrite N.eqb_refl.
  simpl in Hm. destruct (IH a b ltac:(lia) Hf'); [left|right]; lia.
Qed.

Lemma commonSuffix_ge a b m :
  m <= List.length a -> m <= List.length b ->
  skipn (List.length a - m) a = skipn (List.length b - m) b ->
  m <= commonSuffix a b.
Proof.
  intros Ha Hb H. unfold commonSuffix.
  destruct (commonPrefix_ge (rev a) (rev b) m) as [G|G].
  - rewrite length_rev. exact Ha.
  - rewrite !firstn_rev, H. reflexivity.
  - exact G.
  - rewrite length_rev in G. lia.
Qed.

(** How far the trimming goes when [newVal] comes from [oldVal] by one
    replacement of the range [[f, t)] with [x]. *)
Lemma trimming_bounds oldVal f t x :
  f <= t -> t <= List.length oldVal ->
  let newVal := firstn f oldVal ++ x ++ skipn t oldVal in
  let p := commonPrefix oldVal newVal in
  let q := commonSuffix (skipn p oldVal) (skipn p newVal) in
  f <= p /\ f + (List.length oldVal - t) - p <= q /\
  List.length newVal = f + List.length x + (List.length oldVal - t).
Proof.
  intros Hft Ht. cbn zeta.
  set (newVal := firstn f oldVal ++ x ++ skipn t oldVal).
  assert (Hlen : List.length newVal
                 = f + List.length x + (List.length oldVal - t)).
  { unfold newVal. rewrite !length_app, length_firstn, length_skipn. lia. }
  assert (Hp : f <= commonPrefix oldVal newVal).
  { destruct (commonPrefix_ge oldVal newVal f ltac:(lia)) as [G|G];
      [|exact G|lia].
    unfold newVal. rewrite firstn_app, length_firstn.
    replace (f - Nat.min f (List.length oldVal)) with 0 by lia.
    rewrite firstn_firstn, Nat.min_id. simpl. rewrite app_nil_r.
    reflexivity. }
  pose proof (commonPrefix_le oldVal newVal) as (P1 & P2).
  set (p := commonPrefix oldVal newVal) in *.
  repeat split; auto.
  set (m := f + (List.length oldVal - t) - p).
  apply commonSuffix_ge.
  - rewrite length_skipn. lia.
  - rewrite length_skipn. lia.
  - rewrite !length_skipn, !skipn_skipn.
    replace (List.length oldVal - p - m + p)
      with (t + (List.length oldVal - m - t)) by lia.
    replace (List.length newVal - p - m + p)
      with (List.length newVal - m) by lia.
    unfold newVal at 2. rewrite !skipn_app, length_firstn.
    rewrite (skipn_all2 (firstn f oldVal))
      by (rewrite length_firstn; lia).
    rewrite (skipn_all2 x) by lia.
    simpl. rewrite skipn_skipn. f_equal. lia.
Qed.

(** X3. No single-range replacement that turns [oldVal] into [newVal] is
    smaller than the computed change: any such replacement starts no later,
    takes out at least as many code units and puts in at least as many. *)
Theorem computeChange_minimal (oldVal newVal : jsstring) (c c0 : Change) :
  computeChange oldVal newVal = Some c ->
  from c0 <= to c0 -> to c0 <= List.length oldVal ->
  replaceRange oldVal c0 = newVal ->
  from c0 <= from c /\
  to c - from c <= to c0 - from c0 /\
  List.length (text c) <= List.length (text c0).
Proof.
  intros H Hft Ht Hr.
  destruct (computeChange_lengths _ _ _ H) as (Hf & Hto & Hl & B1 & B2).
  pose proof (trimming_bounds oldVal (from c0) (to c0) (text c0) Hft Ht)
    as T. cbn zeta in T. unfold replaceRange in Hr. rewrite Hr in T.
  destruct T as (T1 & T2 & T3).
  rewrite Hf, Hto, Hl. lia.
Qed.

Lemma computeChange_minimal_witness :
  let c := {| from := 2; to := 2; text := lit "a" |} in
  let c0 := {| from := 0; to := 0; text := lit "a" |} in
  from c0 <= from c /\
  to c - from c <= to c0 - from c0 /\
  List.length (text c) <= List.length (text c0).
Proof.
  cbn zeta.
  apply (computeChange_minimal (lit "aa") (lit "aaa")); vm_compute;
    try reflexivity; lia.
Defined.

(** X4. Text inserted into the buffer is reported as a pure insertion of
    the same length, at or after the place where it went in; text taken out
    is reported as a pure deletion of the same length. *)
Theorem computeChange_insert_delete (u t v : jsstring) :
  t <> [] ->
  (exists c,
      computeChange (u ++ v) (u ++ t ++ v) = Some c /\
      to c = from c /\ List.length u <= from c /\
      List.length (text c) = List.length t) /\
  (exists c,
      computeChange (u ++ t ++ v) (u ++ v) = Some c /\
      text c = [] /\ List.length u <= from c /\
      to c - from c = List.length t).
Proof.
  intros Ht.
  assert (Hlt : 0 < List.length t) by (destruct t; simpl; [congruence|lia]).
  split.
  - destruct (computeChange (u ++ v) (u ++ t ++ v)) as [c|] eqn:E.
    + exists c. split; [reflexivity|].
      destruct (computeChange_lengths _ _ _ E) as (Hf & Hto & Hl & B1 & B2).
      pose proof (trimming_bounds (u ++ v) (List.length u) (List.length u) t
                    ltac:(lia) ltac:(rewrite length_app; lia)) as T.
      cbn zeta in T.
      rewrite firstn_app, Nat.sub_diag, firstn_all in T.
      rewrite skipn_app, Nat.sub_diag, skipn_all in T.
      simpl in T. rewrite app_nil_r in T.
      destruct T as (T1 & T2 & T3).
      rewrite !length_app in *. lia.
    + apply computeChange_None in E.
      apply (f_equal (@List.length N)) in E. rewrite !length_app in E. lia.
  - destruct (computeChange (u ++ t ++ v) (u ++ v)) as [c|] eqn:E.
    + exists c. split; [reflexivity|].
      destruct (computeChange_lengths _ _ _ E) as (Hf & Hto & Hl & B1 & B2).
      pose proof (trimming_bounds (u ++ t ++ v) (List.length u)
                    (List.length u + List.length t) []
                    ltac:(lia) ltac:(rewrite !length_app; lia)) as T.
      cbn zeta in T.
      rewrite firstn_app, Nat.sub_diag, firstn_all in T.
      replace (skipn (List.length u + List.length t) (u ++ t ++ v))
        with v in T.
      2:{ rewrite skipn_app, skipn_all2 by lia.
          replace (List.length u + List.length t - List.length u)
            with (List.length t) by lia.
          rewrite skipn_app, skipn_all, Nat.sub_diag. reflexivity. }
      simpl in T. rewrite app_nil_r in T.
      destruct T as (T1 & T2 & T3).
      rewrite !length_app in *.
      assert (L0 : List.length (text c) = 0) by lia.
      destruct (text c); [|simpl in L0; lia].
      repeat split; lia.
    + apply computeChange_None in E.
      apply (f_equal (@List.length N)) in E. rewrite !length_app in E. lia.
Qed.

Lemma computeChange_insert_delete_witness :
  (exists c,
      computeChange (lit "ab" ++ lit "cd") (lit "ab" ++ lit "X" ++ lit "cd")
      = Some c /\
      to c = from c /\ 2 <= from c /\ List.length (text c) = 1) /\
  (exists c,
      computeChange (lit "ab" ++ lit "X" ++ lit "cd") (lit "ab" ++ lit "cd")
      = Some c /\
      text c = [] /\ 2 <= from c /\ to c - from c = 1).
Proof.
  apply (computeChange_insert_delete (lit "ab") (lit "X") (lit "cd")).
  vm_compute. discriminate.
Defined.

End DiffEngine.

(** * Properties of the inner editor's coordinates *)

Section Coordinates.

Lemma splitLines_nonempty s : Ace.splitLines s <> [].
Proof.
  destruct s as [|c r]; simpl; [discriminate|].
  destruct (N.eqb c 10); [discriminate|].
  destruct (Ace.splitLines r); discriminate.
Qed.

Lemma indexToPosition_from_cons l l2 ls r index :
  Ace.indexToPosition_from (l :: l2 :: ls) r index
  = if index <? List.length l + 1
    then {| Ace.row := r; Ace.column := index |}
    else Ace.indexToPosition_from (l2 :: ls) (S r)
                                  (index - (List.length l + 1)).
Proof. reflexivity. Qed.

Lemma positionToIndex_rows_S l ls r :
  Ace.positionToIndex_rows (l :: ls) (S r)
  = List.length l + 1 + Ace.positionToIndex_rows ls r.
Proof. reflexivity. Qed.

Lemma indexToPosition_from_inv lines :
  lines <> [] ->
  forall r index,
    let p := Ace.indexToPosition_from lines r index in
    r <= Ace.row p /\
    Ace.positionToIndex_rows lines (Ace.row p - r) + Ace.column p = index.
Proof.
  induction lines as [|l ls IH]; intros Hne r index; [contradiction|].
  destruct ls as [|l2 ls].
  - simpl. rewrite Nat.sub_diag. simpl. split; auto.
  - rewrite indexToPosition_from_cons.
    destruct (index <? List.length l + 1) eqn:E.
    + simpl. rewrite Nat.sub_diag. simpl. split; auto.
    + apply Nat.ltb_ge in E.
      specialize (IH ltac:(discriminate) (S r) (index - (List.length l + 1))).
      cbn zeta in IH |- *. destruct IH as (Hr & Hi).
      set (p := Ace.indexToPosition_from (l2 :: ls) (S r) _) in *.
      split; [lia|].
      replace (Ace.row p - r) with (S (Ace.row p - S r)) by lia.
      rewrite positionToIndex_rows_S. lia.
Qed.

(** Offsets survive the trip through row/column positions. *)
Lemma positionToIndex_indexToPosition e index :
  Ace.positionToIndex e (Ace.indexToPosition e index) = index.
Proof.
  unfold Ace.positionToIndex, Ace.indexToPosition.
  destruct (indexToPosition_from_inv _ (splitLines_nonempty (Ace.value e)) 0 index)
    as (_ & H).
  rewrite Nat.sub_0_r in H. exact H.
Qed.

Lemma replaced_value e a b t :
  Ace.value
    (Ace.replaced e (Ace.fromPoints (Ace.indexToPosition e a)
                                    (Ace.indexToPosition e b)) t)
  = replaceRange (Ace.value e) {| from := a; to := b; text := t |}.
Proof.
  unfold Ace.replaced, replaceRange. simpl.
  rewrite !positionToIndex_indexToPosition. reflexivity.
Qed.

(** ** Order of positions *)

Lemma Point_leb_same_row r i j :
  i <= j ->
  Ace.Point_leb {| Ace.row := r; Ace.column := i |}
                {| Ace.row := r; Ace.column := j |} = true.
Proof.
  intros H. unfold Ace.Point_leb. simpl.
  rewrite Nat.eqb_refl. apply Nat.leb_le in H. rewrite H.
  apply orb_true_r.
Qed.

Lemma indexToPosition_from_mono lines :
  lines <> [] ->
  forall r i j,
    i <= j ->
    Ace.Point_leb (Ace.indexToPosition_from lines r i)
                  (Ace.indexToPosition_from lines r j) = true.
Proof.
  induction lines as [|l ls IH]; intros Hne r i j Hij; [contradiction|].
  destruct ls as [|l2 ls].
  - simpl. apply Point_leb_same_row, Hij.
  - rewrite !indexToPosition_from_cons.
    destruct (i <? List.length l + 1) eqn:Ei;
      destruct (j <? List.length l + 1) eqn:Ej.
    + apply Point_leb_same_row, Hij.
    + destruct (indexToPosition_from_inv (l2 :: ls) ltac:(discriminate)
                  (S r) (j - (List.length l + 1))) as (Hr & _).
      set (q := Ace.indexToPosition_from (l2 :: ls) (S r) _) in *.
      unfold Ace.Point_leb. cbn [Ace.row Ace.column].
      replace (r <? Ace.row q) with true; [reflexivity|].
      symmetry. apply Nat.ltb_lt. lia.
    + apply Nat.ltb_ge in Ei. apply Nat.ltb_lt in Ej. lia.
    + apply Nat.ltb_ge in Ei. apply Nat.ltb_ge in Ej.
      apply IH; [discriminate|lia].
Qed.

Lemma Point_leb_antisym p q :
  Ace.Point_leb p q = true -> Ace.Point_leb q p = true -> p = q.
Proof.
  destruct p as [r1 c1], q as [r2 c2]. unfold Ace.Point_leb. simpl.
  intros H1 H2.
  apply orb_true_iff in H1. apply orb_true_iff in H2.
  rewrite !andb_true_iff, !Nat.ltb_lt, !Nat.eqb_eq, !Nat.leb_le in *.
  f_equal; lia.
Qed.

(** Positions are ordered as the offsets they stand for. *)
Lemma indexToPosition_leb e i j :
  Ace.Point_leb (Ace.indexToPosition e i) (Ace.indexToPosition e j)
  = (i <=? j).
Proof.
  unfold Ace.indexToPosition.
  pose proof (splitLines_nonempty (Ace.value e)) as Hne.
  destruct (i <=? j) eqn:E.
  - apply Nat.leb_le in E. apply indexToPosition_from_mono; assumption.
  - apply Nat.leb_gt in E.
    destruct (Ace.Point_leb _ _) eqn:L; [|reflexivity].
    pose proof (indexToPosition_from_mono _ Hne 0 j i ltac:(lia)) as L'.
    pose proof (Point_leb_antisym _ _ L L') as P.
    pose proof (positionToIndex_indexToPosition e i) as Ri.
    pose proof (positionToIndex_indexToPosition e j) as Rj.
    unfold Ace.indexToPosition in Ri, Rj. rewrite P in Ri. lia.
Qed.

End Coordinates.

(** * Properties of the node view *)

Section NodeView.

(** Unfolds the monad so that a method applied to a state computes. *)
Ltac run :=
  unfold result, after, events, bind, get, modify, emit, ret,
    chunk_setMode, editor_execCommand, view_dispatch, undoInputRule_dispatch,
    enableChunkExecution in *;
  cbn [fst snd] in *.

#[local] Arguments updateMode : simpl never.
#[local] Arguments forwardSelection : simpl never.
#[local] Arguments valueChanged : simpl never.
#[local] Arguments view_focus : simpl never.
#[local] Arguments editor_focus : simpl never.
#[local] Arguments listener : simpl never.

(** ** Mode and runnability *)

(** [updateMode] touches nothing but the mode and the toolbar. *)
Lemma updateMode_frame s :
  let s' := after (updateMode s) in
  node s' = node s /\ updating s' = updating s /\
  escaping s' = escaping s /\ editor s' = editor s /\
  inactive s' = inactive s /\ focus s' = focus s /\
  getPos s' = getPos s /\ view s' = view s /\
  options s' = options s /\ editorOptions s' = editorOptions s.
Proof.
  unfold updateMode, updateModeWith. run.
  destruct (lang (options s) (node s) (getContents s)) as [l|]; simpl.
  - destruct (str_eq (mode s) l); simpl;
      destruct (truthy l && _); simpl; repeat split; reflexivity.
  - repeat split; reflexivity.
Qed.

Lemma updateMode_events s :
  events (updateMode s)
  = match lang (options s) (node s) (getContents s) with
    | Some l => if str_eq (mode s) l then [] else [SetMode l]
    | None => []
    end.
Proof.
  unfold updateMode, updateModeWith. run.
  destruct (lang (options s) (node s) (getContents s)) as [l|]; simpl;
    [|reflexivity].
  destruct (str_eq (mode s) l); simpl;
    destruct (truthy l && _); reflexivity.
Qed.

Lemma find_among_nonempty (f : jsstring -> bool) langs :
  forallb truthy langs = true ->
  match find f langs with Some x => truthy x | None => false end
  = existsb f langs.
Proof.
  induction langs as [|x langs IH]; simpl; [reflexivity|].
  intros H. apply andb_true_iff in H. destruct H as (Hx & H).
  destruct (f x); simpl; [exact Hx | apply IH, H].
Qed.

(** C7 (amended). Whatever the runtime answers for [localeCompare] at
    sensitivity ['accent']: on every mode update the highlighting mode is
    set exactly once when the detected language tag is not null and differs
    from the stored mode, and not at all otherwise; the execution
    affordance is shown exactly when an execution callback and a list of
    executable languages are configured, the detected tag is not null and
    not empty, and the first entry of the list that compares equal to the
    tag exists and is not the empty string; when the list has no empty
    entry, that is exactly when some entry compares equal to the tag. *)
Theorem updateMode_spec
        (localeCompare_is0 : jsstring -> jsstring -> bool)
        (s : CodeBlockNodeView) :
  let r := updateModeWith localeCompare_is0 s in
  let detected := lang (options s) (node s) (getContents s) in
  modesSet (events r)
    = match detected with
      | Some l => if str_eq (mode s) l then [] else [l]
      | None => []
      end /\
  mode (after r)
    = match detected with Some l => l | None => mode s end /\
  toolbarDisplayed (after r)
    = match detected, rmdChunkExecution (editorOptions s) with
      | Some l, Some langs =>
          executeRmdChunkFn (options s) && truthy l &&
          match find (localeCompare_is0 l) langs with
          | Some x => truthy x
          | None => false
          end
      | _, _ => false
      end /\
  (forall l langs,
      detected = Some l ->
      rmdChunkExecution (editorOptions s) = Some langs ->
      forallb truthy langs = true ->
      toolbarDisplayed (after r)
      = executeRmdChunkFn (options s) && truthy l &&
        existsb (localeCompare_is0 l) langs).
Proof.
  cbn zeta.
  assert (T : toolbarDisplayed (after (updateModeWith localeCompare_is0 s))
              = match lang (options s) (node s) (getContents s),
                      rmdChunkExecution (editorOptions s) with
                | Some l, Some langs =>
                    executeRmdChunkFn (options s) && truthy l &&
                    match find (localeCompare_is0 l) langs with
                    | Some x => truthy x
                    | None => false
                    end
                | _, _ => false
                end).
  { unfold updateModeWith. run.
    destruct (lang (options s) (node s) (getContents s)) as [l|]; simpl;
      [|reflexivity].
    unfold canExecuteChunks.
    destruct (str_eq (mode s) l); simpl;
      destruct (rmdChunkExecution (editorOptions s)) as [langs|]; simpl;
      destruct (truthy l); simpl;
      destruct (executeRmdChunkFn (options s)); reflexivity. }
  split; [|split; [|split]].
  - unfold updateModeWith. run.
    destruct (lang (options s) (node s) (getContents s)) as [l|]; simpl;
      [|reflexivity].
    destruct (str_eq (mode s) l); simpl;
      destruct (truthy l && _); reflexivity.
  - unfold updateModeWith. run.
    destruct (lang (options s) (node s) (getContents s)) as [l|]; simpl;
      [|reflexivity].
    destruct (str_eq (mode s) l) eqn:E; simpl.
    + apply str_eq_true in E. destruct (truthy l && _); simpl; congruence.
    + destruct (truthy l && _); reflexivity.
  - exact T.
  - intros l langs Hd Hl Hne. rewrite T, Hd, Hl.
    rewrite (find_among_nonempty _ _ Hne). reflexivity.
Qed.

(** The tag [r] against the list [R], compared up to case. *)
Lemma updateMode_spec_witness :
  let s := Sample.binding [] Ace.origin Ace.origin 0
             (Sample.stateOf [Sample.codeNode []]
                             (TextSelection_create 1 1) false)
             (Sample.langOptions (lit "r"))
             {| rmdChunkExecution := Some [lit "R"] |} in
  toolbarDisplayed
    (after (updateModeWith Intl.localeCompare_accent_is0 s)) = true.
Proof.
  cbn zeta.
  match goal with
  | |- toolbarDisplayed (after (updateModeWith _ ?s)) = _ =>
      rewrite (proj2 (proj2 (proj2
                 (updateMode_spec Intl.localeCompare_accent_is0 s)))
                 (lit "r") [lit "R"] eq_refl eq_refl eq_refl)
  end.
  reflexivity.
Defined.

(** ** Host-driven update *)

(** What [update] computes, with the listener fired by the replacement
    already run. *)
Lemma update_eq newNode s :
  update newNode s
  = if NodeType_same (type newNode) (type (node s)) then
      let m := updateMode (set_node newNode s) in
      match computeChange (getContents s) (textContent newNode) with
      | Some change =>
          let range :=
            Ace.fromPoints (Ace.indexToPosition (editor s) (from change))
                           (Ace.indexToPosition (editor s) (to change)) in
          (true,
           set_updating false
             (set_editor (Ace.replaced (editor s) range (text change))
                         (set_updating true (after m))),
           events m ++ [SessionReplace true range (text change);
                        Fired onChange (Some true)])
      | None => (true, after m, events m)
      end
    else (false, s, []).
Proof.
  unfold update.
  destruct (NodeType_same (type newNode) (type (node s))) eqn:T;
    [|run; simpl; rewrite T; reflexivity].
  pose proof (updateMode_frame (set_node newNode s)) as F. cbn zeta in F.
  destruct F as (_ & _ & _ & Fe & _).
  run. simpl. rewrite T. simpl.
  destruct (updateMode (set_node newNode s)) as [[u s1] e1].
  simpl in *. rewrite Fe. unfold getContents.
  destruct (computeChange (Ace.value (editor s)) (textContent newNode))
    as [change|]; simpl.
  - unfold editSession_replace, listener. run. simpl.
    rewrite !Fe. reflexivity.
  - rewrite app_nil_r. reflexivity.
Qed.

Lemma updateMode_events_guarded s :
  forallb guardedEvent (events (updateMode s)) = true /\
  existsb isApply (events (updateMode s)) = false /\
  dispatched (events (updateMode s)) = [].
Proof.
  rewrite updateMode_events.
  destruct (lang _ _ _) as [l|]; [destruct (str_eq _ _)|]; auto.
Qed.

(** C2. [update] answers false, and does nothing else, when the new node's
    type differs from the bound node's; otherwise it takes the new node,
    recomputes the mode, and, when the inner buffer differs from the new
    node's text, applies the computed change to the buffer with the
    [updating] flag raised, after which the buffer equals the node's text;
    it then answers true. *)
Theorem update_spec (newNode : ProsemirrorNode) (s : CodeBlockNodeView) :
  let r := update newNode s in
  if NodeType_same (type newNode) (type (node s)) then
    let m := updateMode (set_node newNode s) in
    result r = true /\
    node (after r) = newNode /\
    mode (after r) = mode (after m) /\
    toolbarDisplayed (after r) = toolbarDisplayed (after m) /\
    match computeChange (getContents s) (textContent newNode) with
    | Some change =>
        getContents (after r) = replaceRange (getContents s) change /\
        getContents (after r) = textContent newNode /\
        events r
          = events m ++
            [SessionReplace true
               (Ace.fromPoints
                  (Ace.indexToPosition (editor s) (from change))
                  (Ace.indexToPosition (editor s) (to change)))
               (text change);
             Fired onChange (Some true)] /\
        updating (after r) = false
    | None => after r = after m /\ events r = events m
    end
  else result r = false /\ after r = s /\ events r = [].
Proof.
  cbn zeta. rewrite update_eq.
  destruct (NodeType_same (type newNode) (type (node s))); [|auto].
  pose proof (updateMode_frame (set_node newNode s)) as F. cbn zeta in F.
  destruct F as (Fn & _).
  destruct (computeChange (getContents s) (textContent newNode))
    as [change|] eqn:C; cbn zeta.
  - pose proof (computeChange_patch _ _ _ C) as P.
    unfold result, after, events, getContents in *. simpl.
    rewrite !positionToIndex_indexToPosition.
    repeat split; auto.
  - repeat split; auto.
Qed.

(** ** The [updating] guard *)

Lemma forwardSelection_events_guarded s :
  forallb guardedEvent (events (forwardSelection s)) = true /\
  existsb isApply (events (forwardSelection s)) = false /\
  updating (after (forwardSelection s)) = updating s /\
  editor (after (forwardSelection s)) = editor s.
Proof.
  unfold forwardSelection. run. cbn -[Selection_eqb asProseMirrorSelection].
  destruct (hasFocus s); cbn -[Selection_eqb asProseMirrorSelection];
    [|auto].
  destruct (Selection_eqb _ _); simpl; auto.
Qed.

Lemma valueChanged_updating s :
  updating (after (valueChanged s)) = updating s.
Proof.
  unfold valueChanged. run.
  destruct (updateMode_frame s) as (_ & U & _).
  destruct (computeChange _ _); simpl;
    destruct (updateMode s) as [[u s1] e1]; exact U.
Qed.

Lemma listener_updating l s :
  updating (after (listener l s)) = updating s.
Proof.
  destruct l; unfold listener; run; simpl.
  - destruct (updating s) eqn:U; simpl; [exact U|].
    destruct (forwardSelection_events_guarded s) as (_ & _ & U' & _).
    destruct (forwardSelection s) as [[u s1] e1]. unfold after, events in *; simpl in *. congruence.
  - destruct (updating s) eqn:U; simpl; [exact U|].
    run. pose proof (valueChanged_updating s) as V.
    destruct (valueChanged s) as [[u s1] e1]. unfold after, events in *; simpl in *.
    destruct (forwardSelection_events_guarded s1) as (_ & _ & U' & _).
    destruct (forwardSelection s1) as [[u2 s2] e2]. unfold after, events in *; simpl in *. congruence.
  - destruct (forwardSelection_events_guarded (set_inactive false s))
      as (_ & _ & U' & _).
    destruct (forwardSelection _) as [[u s1] e1]. unfold after, events in *; simpl in *. exact U'.
  - reflexivity.
Qed.

Lemma editor_focus_run s :
  forallb guardedEvent (events (editor_focus s)) = true /\
  existsb isApply (events (editor_focus s)) = false /\
  updating (after (editor_focus s)) = updating s.
Proof.
  unfold editor_focus. run. simpl.
  destruct (focus s); simpl; auto.
  all: unfold listener; run; simpl.
  all: destruct (forwardSelection_events_guarded
                   (set_inactive false (set_focus FocusInner s)))
      as (G & A & U & _).
  all: destruct (forwardSelection _) as [[u s1] e1]; unfold after, events in *; simpl in *; auto.
Qed.

Lemma view_focus_updating s :
  updating (after (view_focus s)) = updating s.
Proof.
  unfold view_focus, listener. run. destruct (focus s); reflexivity.
Qed.

(** What [setSelection] does to the flag and which events it leaves. *)
Lemma setSelection_run anchor head s :
  let r := setSelection anchor head s in
  existsb isApply (events r) = true /\
  forallb guardedEvent (events r) = true /\
  updating (after r) = false.
Proof.
  cbn zeta. unfold setSelection. run.
  assert (H : forall s0 : CodeBlockNodeView * list Event,
             forallb guardedEvent (snd s0) = true ->
             let '(s1, e1) := s0 in
             let r :=
               (modify (set_updating true) ;;
                s' <- get ;;
                selection_setSelectionRange
                  (Ace.fromPoints
                     (Ace.indexToPosition (editor s') anchor)
                     (Ace.indexToPosition (editor s') head)) ;;
                modify (set_updating false)) s1 in
             existsb isApply (e1 ++ events r) = true /\
             forallb guardedEvent (e1 ++ events r) = true /\
             updating (after r) = false).
  { intros [s1 e1] G. unfold selection_setSelectionRange, listener. run.
    unfold after, events in *; simpl in *. rewrite existsb_app, forallb_app, G. simpl.
    rewrite orb_true_r. auto. }
  destruct (escaping s); simpl.
  - apply (H (s, [])). reflexivity.
  - destruct (editor_focus_run s) as (G & _).
    destruct (editor_focus s) as [[u s1] e1]. unfold after, events in *; simpl in *.
    specialize (H (s1, e1) G). simpl in H. run.
    unfold selection_setSelectionRange, listener in *. run. unfold after, events in *; simpl in *.
    exact H.
Qed.

Lemma update_updating newNode s :
  let r := update newNode s in
  forallb guardedEvent (events r) = true /\
  updating (after r) = updating s && negb (existsb isApply (events r)).
Proof.
  cbn zeta. rewrite update_eq.
  destruct (NodeType_same (type newNode) (type (node s)));
    [|simpl; rewrite andb_true_r; auto].
  pose proof (updateMode_frame (set_node newNode s)) as F. cbn zeta in F.
  destruct F as (_ & Fu & _).
  destruct (updateMode_events_guarded (set_node newNode s)) as (G & A & _).
  destruct (computeChange (getContents s) (textContent newNode));
    cbn zeta; unfold after, events in *; simpl.
  - rewrite forallb_app, existsb_app, G, A. simpl.
    rewrite andb_false_r. auto.
  - rewrite G, A, Fu. simpl. rewrite andb_true_r. auto.
Qed.

Lemma arrowMaybeEscape_updating unit_ dir command s :
  updating (after (arrowMaybeEscape unit_ dir command s)) = updating s.
Proof.
  unfold arrowMaybeEscape. run. simpl.
  destruct (staysInside unit_ dir s); [reflexivity|].
  pose proof (view_focus_updating (set_escaping true s)) as U1.
  destruct (view_focus (set_escaping true s)) as [[u1 s1] e1].
  unfold after, events in *; simpl in *.
  destruct (escapeSelection dir s1); run; simpl;
    pose proof (view_focus_updating s1) as U2;
    destruct (view_focus s1) as [[u2 s2] e2]; unfold after, events in *; simpl in *; congruence.
Qed.

Lemma backspace_updating s :
  updating (after (backspaceMaybeDeleteNode s)) = updating s.
Proof.
  unfold backspaceMaybeDeleteNode. run. simpl.
  destruct (Nat.eqb _ 0); [|reflexivity].
  pose proof (view_focus_updating s) as U.
  destruct (undoableInputRule (view s)); run; simpl;
    destruct (view_focus s) as [[u s1] e1]; exact U.
Qed.

Lemma construct_updating n st pos f eo o :
  updating (fst (construct n st pos f eo o)) = false.
Proof.
  unfold construct. run. cbn zeta.
  destruct (updateMode _) as [[u s1] e1]. reflexivity.
Qed.

(** No call leaves the flag raised when it found it down. *)
Lemma perform_updating c s :
  updating s = false -> updating (after (perform c s)) = false.
Proof.
  intros U. destruct c; unfold perform.
  - run. destruct (update_updating newNode s) as (_ & H).
    destruct (update newNode s) as [[b s1] e1]. unfold after, events in *; simpl in *.
    rewrite H, U. reflexivity.
  - apply setSelection_run.
  - unfold selectNode. rewrite (proj2 (proj2 (editor_focus_run s))). exact U.
  - rewrite arrowMaybeEscape_updating. exact U.
  - rewrite backspace_updating. exact U.
  - pose proof (listener_updating onChange (set_editor e s)) as L.
    run. simpl. destruct (listener onChange (set_editor e s)) as [[u s1] e1].
    simpl in *. congruence.
  - pose proof (listener_updating onChangeCursor
                  (set_editor {| Ace.value := Ace.value (editor s);
                                 Ace.anchor := a; Ace.lead := c |} s)) as L.
    run. simpl. destruct (listener onChangeCursor _) as [[u s1] e1].
    simpl in *. congruence.
  - rewrite (proj2 (proj2 (editor_focus_run s))). exact U.
  - run. simpl. destruct (focus s); simpl; auto.
  - run. simpl. exact U.
Qed.

(** C3. Each cross-sync apply (the replacement inside [update], the
    selection change inside [setSelection]) is made with the [updating]
    flag raised, the listeners it fires find the flag raised, and the flag
    is down again when the method returns: always after [setSelection],
    and after [update] whenever it applied a change or found the flag
    down on entry.  The flag is therefore down in every state a node view
    can be in between two calls. *)
Theorem updating_guard :
  (forall anchor head s,
      let r := setSelection anchor head s in
      existsb isApply (events r) = true /\
      forallb guardedEvent (events r) = true /\
      updating (after r) = false) /\
  (forall newNode s,
      let r := update newNode s in
      forallb guardedEvent (events r) = true /\
      updating (after r)
        = updating s && negb (existsb isApply (events r))) /\
  (forall s, reachable s -> updating s = false).
Proof.
  split; [exact setSelection_run|].
  split; [exact update_updating|].
  intros s R. induction R as [n st pos f eo o | s c R IH].
  - apply construct_updating.
  - apply perform_updating, IH.
Qed.

(** A node view built on the text [abc], then updated by the host to
    [abXc]: the flag is down afterwards. *)
Lemma updating_guard_witness :
  let host := Sample.stateOf [Sample.codeNode (lit "abc")]
                             (TextSelection_create 1 1) false in
  let s0 := fst (construct (Sample.codeNode (lit "abc")) host 0 FocusHost
                           Sample.noExecution Sample.plainOptions) in
  let s1 := after (perform (call_update (Sample.codeNode (lit "abXc"))) s0) in
  getContents s1 = lit "abXc" /\ updating s1 = false.
Proof.
  cbn zeta. split; [vm_compute; reflexivity|].
  apply (proj2 (proj2 updating_guard)).
  apply reachable_call, reachable_new.
Defined.

(** ** Boundary navigation *)

(** C4. A directional command stays inside the inner editor, that is the
    underlying move command is executed and nothing else happens, whenever
    the inner selection is not empty, or the cursor is not on the boundary
    row for the direction (row 0 when [dir < 0], the last row otherwise),
    or the unit is ['char'] and the cursor is not on the boundary column
    of its row (column 0 when [dir < 0], the line length otherwise). *)
Theorem arrow_stays_inside
        (unit_ : string) (dir : Z) (command : string)
        (s : CodeBlockNodeView) :
  let pos := Ace.getCursorPosition (editor s) in
  let boundaryRow :=
    if (dir <? 0)%Z then 0%Z
    else (Z.of_nat (Ace.getLength (editor s)) - 1)%Z in
  let boundaryColumn :=
    if (dir <? 0)%Z then 0
    else List.length (Ace.getLine (editor s) (Ace.row pos)) in
  Ace.selectionIsEmpty (editor s) = false \/
  Z.of_nat (Ace.row pos) <> boundaryRow \/
  (unit_ = "char"%string /\ Ace.column pos <> boundaryColumn) ->
  arrowMaybeEscape unit_ dir command s = (tt, s, [ExecCommand command]).
Proof.
  cbn zeta. intros H.
  assert (E : staysInside unit_ dir s = true).
  { unfold staysInside. destruct H as [H | [H | [H1 H2]]].
    - rewrite H. reflexivity.
    - apply Z.eqb_neq in H. rewrite H. simpl.
      rewrite orb_true_r. reflexivity.
    - apply Nat.eqb_neq in H2. rewrite H2. subst unit_. simpl.
      apply orb_true_r. }
  unfold arrowMaybeEscape. run. simpl. rewrite E. reflexivity.
Qed.

(** The cursor at row 0, column 3 of a single line of length 10, moving
    left. *)
Lemma arrow_stays_inside_witness :
  let cursor := {| Ace.row := 0; Ace.column := 3 |} in
  let text := lit "0123456789" in
  let s := Sample.binding text cursor cursor 0
             (Sample.stateOf [Sample.codeNode text]
                             (TextSelection_create 4 4) false)
             Sample.plainOptions Sample.noExecution in
  arrowMaybeEscape "char" (-1) "gotoleft" s
  = (tt, s, [ExecCommand "gotoleft"]).
Proof.
  cbn zeta. apply arrow_stays_inside.
  right. right. split; [reflexivity | vm_compute; discriminate].
Defined.

Lemma view_focus_spec s :
  focus (after (view_focus s)) = FocusHost /\
  escaping (after (view_focus s)) = escaping s /\
  view (after (view_focus s)) = view s /\
  getPos (after (view_focus s)) = getPos s /\
  node (after (view_focus s)) = node s /\
  dispatched (events (view_focus s)) = [].
Proof.
  unfold view_focus, listener. run.
  destruct (focus s); simpl; auto 10.
Qed.

(** What [arrowMaybeEscape] dispatches once the movement leaves the
    editor. *)
Lemma arrowMaybeEscape_escape unit_ dir command s :
  staysInside unit_ dir s = false ->
  let r := arrowMaybeEscape unit_ dir command s in
  dispatched (events r)
    = match escapeSelection dir s with
      | Some sel => [[tr_setSelection sel; tr_scrollIntoView]]
      | None => []
      end /\
  focus (after r) = FocusHost /\
  escaping (after r) = false /\
  view (after r) = view s.
Proof.
  intros E. cbn zeta. unfold arrowMaybeEscape. run. simpl. rewrite E.
  destruct (view_focus_spec (set_escaping true s))
    as (_ & _ & V1 & P1 & N1 & D1).
  destruct (view_focus (set_escaping true s)) as [[u1 s1] e1].
  unfold after, events in *. simpl in *.
  assert (ES : escapeSelection dir s1 = escapeSelection dir s).
  { unfold escapeSelection, prevNodeSelectable, nextNodeSelectable.
    rewrite V1, P1, N1. reflexivity. }
  rewrite ES.
  destruct (escapeSelection dir s) as [sel|]; run; simpl.
  - destruct (view_focus_spec s1) as (F2 & _ & V2 & _ & _ & D2).
    destruct (view_focus s1) as [[u2 s2] e2].
    unfold after, events in *. simpl in *.
    unfold dispatched in *.
    repeat first [rewrite flat_map_app | rewrite D1 | rewrite D2
                 | progress simpl].
    repeat split; congruence.
  - destruct (view_focus_spec s1) as (F2 & _ & V2 & _ & _ & D2).
    destruct (view_focus s1) as [[u2 s2] e2].
    unfold after, events in *. simpl in *.
    unfold dispatched in *.
    repeat first [rewrite flat_map_app | rewrite D1 | rewrite D2
                 | progress simpl].
    repeat split; congruence.
Qed.

(** C5 (amended). When the movement leaves the editor: going backward
    with a selectable node just before, a node selection at that node's
    position is dispatched; going forward with a selectable node just
    after, a node selection at that node's position; otherwise, when the
    document has a node at the target position (the node's own position
    going backward, the position after it going forward), a selection
    near the target biased by the direction; and when it has none,
    nothing is dispatched and the host selection stays as it was.  In
    every case the host view ends up with the input focus. *)
Theorem arrow_escape_target
        (unit_ : string) (dir : Z) (command : string)
        (s : CodeBlockNodeView) :
  staysInside unit_ dir s = false ->
  let r := arrowMaybeEscape unit_ dir command s in
  let p := getPos s in
  let size := nodeSize (node s) in
  let select sel := [[tr_setSelection sel; tr_scrollIntoView]] in
  (forall nodeBefore,
      (dir < 0)%Z ->
      doc_nodeBefore (view s) p = Some nodeBefore ->
      selectable nodeBefore = true ->
      dispatched (events r)
      = select (NodeSelection_create (p - nodeSize nodeBefore)%Z)) /\
  (forall nextNode,
      (dir >= 0)%Z ->
      doc_nodeAt (view s) (p + size)%Z = Some nextNode ->
      selectable nextNode = true ->
      dispatched (events r)
      = select (NodeSelection_create (p + size)%Z)) /\
  ((dir < 0)%Z -> prevNodeSelectable s = false ->
   dispatched (events r)
   = match doc_nodeAt (view s) p with
     | Some _ => select (Selection_near p dir)
     | None => []
     end) /\
  ((dir >= 0)%Z -> nextNodeSelectable s = false ->
   dispatched (events r)
   = match doc_nodeAt (view s) (p + size)%Z with
     | Some _ => select (Selection_near (p + size)%Z dir)
     | None => []
     end) /\
  view (after r) = view s /\
  focus (after r) = FocusHost.
Proof.
  intros E. cbn zeta.
  destruct (arrowMaybeEscape_escape unit_ dir command s E)
    as (D & F & _ & V).
  cbn zeta in D. rewrite D. unfold escapeSelection.
  repeat split; auto.
  - intros nb Hd Hb Hs. apply Z.ltb_lt in Hd.
    unfold prevNodeSelectable. rewrite Hd, Hb, Hs. reflexivity.
  - intros nn Hd Hn Hs.
    assert (Hd' : (dir <? 0)%Z = false) by (apply Z.ltb_ge; lia).
    assert (Hd'' : (dir >=? 0)%Z = true) by (apply Z.geb_le; lia).
    unfold nextNodeSelectable. rewrite Hd', Hd'', Hn, Hs. reflexivity.
  - intros Hd Hp. apply Z.ltb_lt in Hd as Hd'.
    assert (Hd'' : (dir >=? 0)%Z = false).
    { destruct (dir >=? 0)%Z eqn:G; [|reflexivity].
      apply Z.geb_le in G. lia. }
    rewrite Hd', Hd'', Hp. simpl. rewrite Z.add_0_r.
    destruct (doc_nodeAt (view s) (getPos s)); reflexivity.
  - intros Hd Hn.
    assert (Hd' : (dir <? 0)%Z = false) by (apply Z.ltb_ge; lia).
    assert (Hd'' : (dir >=? 0)%Z = true) by (apply Z.geb_le; lia).
    rewrite Hd', Hd'', Hn. simpl.
    destruct (doc_nodeAt (view s) (getPos s + nodeSize (node s))%Z);
      reflexivity.
Qed.

(** Leaving a code block upward when a horizontal rule precedes it: the
    rule is selected as a node. *)
Lemma arrow_escape_target_witness :
  let s := Sample.binding (lit "x") Ace.origin Ace.origin 1
             (Sample.stateOf [Sample.ruleNode; Sample.codeNode (lit "x")]
                             (TextSelection_create 2 2) false)
             Sample.plainOptions Sample.noExecution in
  dispatched (events (arrowMaybeEscape "char" (-1) "gotoleft" s))
  = [[tr_setSelection (NodeSelection_create 0); tr_scrollIntoView]].
Proof.
  cbn zeta.
  refine (proj1 (arrow_escape_target "char" (-1) "gotoleft" _ _)
                Sample.ruleNode _ _ _);
    vm_compute; reflexivity.
Defined.

(** C5 as stated fails on the focus: leaving the last block of a document
    downward dispatches nothing, yet the input focus moves from the inner
    editor to the host view. *)
Lemma arrow_escape_focus_counterexample :
  let cursor := {| Ace.row := 0; Ace.column := 1 |} in
  let s := Sample.binding (lit "x") cursor cursor 0
             (Sample.stateOf [Sample.codeNode (lit "x")]
                             (TextSelection_create 2 2) false)
             Sample.plainOptions Sample.noExecution in
  let r := arrowMaybeEscape "char" 1 "gotoright" s in
  staysInside "char" 1 s = false /\
  nextNodeSelectable s = false /\
  doc_nodeAt (view s) (getPos s + nodeSize (node s))%Z = None /\
  dispatched (events r) = [] /\
  focus (after r) <> focus s.
Proof. vm_compute. repeat split; discriminate. Qed.

(** C6. Backspace on a node without content undoes a pending input rule
    if there is one, and otherwise deletes the node's whole range
    [[getPos, getPos + nodeSize)] from the host and puts the host
    selection near the node's former position, looking backward; in both
    cases the host view is then focused.  On a node with content the
    backspace command is passed to the inner editor and nothing else
    happens. *)
Theorem backspace_spec (s : CodeBlockNodeView) :
  let r := backspaceMaybeDeleteNode s in
  let p := getPos s in
  if Nat.eqb (childCount (node s)) 0 then
    (if undoableInputRule (view s) then
       events r = UndoInputRule :: events (view_focus s)
     else
       events r
       = Dispatch [tr_delete p (p + nodeSize (node s))%Z;
                   tr_setSelection (TextSelection_near p (-1))]
           :: events (view_focus s)) /\
    dispatched (events (view_focus s)) = [] /\
    focus (after r) = FocusHost
  else r = (tt, s, [ExecCommand "backspace"]).
Proof.
  cbn zeta. unfold backspaceMaybeDeleteNode. run. simpl.
  destruct (Nat.eqb (childCount (node s)) 0); [|reflexivity].
  destruct (view_focus_spec s) as (F & _ & _ & _ & _ & D).
  destruct (undoableInputRule (view s)); run; simpl;
    destruct (view_focus s) as [[u s1] e1]; simpl in *; auto.
Qed.

(** C7 as stated fails on accents and on the empty tag: the tag e-acute
    (code unit 233) is equal to the entry [e] once case and accents are
    ignored, and the
    empty tag is equal to an empty entry, yet with an execution callback
    configured neither shows the execution affordance. *)
Lemma updateMode_accent_counterexample :
  let e_acute : jsstring := [233%N] in
  let host := Sample.stateOf [Sample.codeNode []]
                             (TextSelection_create 1 1) false in
  let s1 := Sample.binding [] Ace.origin Ace.origin 0 host
              (Sample.langOptions e_acute)
              {| rmdChunkExecution := Some [lit "e"] |} in
  let s2 := Sample.binding [] Ace.origin Ace.origin 0 host
              (Sample.langOptions [])
              {| rmdChunkExecution := Some [[]] |} in
  (executeRmdChunkFn (options s1) = true /\
   existsb (Intl.localeCompare_base_is0 e_acute) [lit "e"] = true /\
   toolbarDisplayed (after (updateMode s1)) = false) /\
  (executeRmdChunkFn (options s2) = true /\
   existsb (Intl.localeCompare_base_is0 []) [[]] = true /\
   toolbarDisplayed (after (updateMode s2)) = false).
Proof. vm_compute. repeat split; reflexivity. Qed.

(** ** Host offsets *)

Lemma valueChanged_dispatched s :
  dispatched (events (valueChanged s))
  = match computeChange (textContent (node s)) (getContents s) with
    | Some change =>
        [[tr_replaceWith (getPos s + 1 + Z.of_nat (from change))
                         (getPos s + 1 + Z.of_nat (to change))
                         (if truthy (text change) then Some (text change)
                          else None)]]
    | None => []
    end.
Proof.
  unfold valueChanged. run.
  destruct (computeChange (textContent (node s)) (getContents s))
    as [change|]; simpl;
    destruct (updateMode_events_guarded s) as (_ & _ & D);
    destruct (updateMode s) as [[u s1] e1]; unfold events in D;
    simpl in *; rewrite D; reflexivity.
Qed.

(** C8. The host offset of the node-local offset [k] is
    [getPos + 1 + k]: the selection handed to the host has its anchor and
    head at the inner offsets of the selected range shifted by
    [getPos + 1], and an inner content change [{from, to, text}] is
    dispatched as a replacement of the host range
    [[getPos + 1 + from, getPos + 1 + to)]. *)
Theorem host_offsets (s : CodeBlockNodeView) :
  let p := getPos s in
  let range := Ace.getRange (editor s) in
  let local q := Z.of_nat (Ace.positionToIndex (editor s) q) in
  asProseMirrorSelection s
  = TextSelection_create (p + 1 + local (Ace.start range))
                         (p + 1 + local (Ace.end_ range)) /\
  dispatched (events (valueChanged s))
  = match computeChange (textContent (node s)) (getContents s) with
    | Some change =>
        [[tr_replaceWith (p + 1 + Z.of_nat (from change))
                         (p + 1 + Z.of_nat (to change))
                         (if truthy (text change) then Some (text change)
                          else None)]]
    | None => []
    end.
Proof.
  cbn zeta. split; [|apply valueChanged_dispatched].
  unfold asProseMirrorSelection. f_equal; lia.
Qed.

(** ** What the methods leave alone *)

Section Frames.

Variable R : CodeBlockNodeView -> CodeBlockNodeView -> Prop.
Hypothesis R_refl : forall s, R s s.
Hypothesis R_trans : forall s1 s2 s3, R s1 s2 -> R s2 s3 -> R s1 s3.
Hypothesis R_node : forall n s, R s (set_node n s).
Hypothesis R_updating : forall b s, R s (set_updating b s).
Hypothesis R_editor : forall e s, R s (set_editor e s).
Hypothesis R_inactive : forall b s, R s (set_inactive b s).
Hypothesis R_focus : forall f s, R s (set_focus f s).
Hypothesis R_host : forall st pos s, R s (set_host st pos s).
Hypothesis R_updateMode : keeps R updateMode.

Lemma keeps_ret {A} (a : A) : keeps R (ret a).
Proof. intros s. apply R_refl. Qed.

Lemma keeps_get : keeps R get.
Proof. intros s. apply R_refl. Qed.

Lemma keeps_emit e : keeps R (emit e).
Proof. intros s. apply R_refl. Qed.

Lemma keeps_modify f : (forall s, R s (f s)) -> keeps R (modify f).
Proof. intros H s. apply H. Qed.

Lemma keeps_bind {A B} (m : M A) (k : A -> M B) :
  keeps R m -> (forall a, keeps R (k a)) -> keeps R (bind m k).
Proof.
  intros Hm Hk s. unfold keeps, after, bind in *.
  specialize (Hm s). destruct (m s) as [[a s1] e1].
  specialize (Hk a s1). destruct (k a s1) as [[b s2] e2].
  simpl in *. eapply R_trans; eauto.
Qed.

(** Takes a method apart along its binds and branches. *)
Ltac keep :=
  repeat first
    [ match goal with
      | H : keeps R _ |- keeps R _ => apply H
      | H : forall _, keeps R _ |- keeps R _ => apply H
      | H : forall _ _, keeps R _ |- keeps R _ => apply H
      end
    | apply keeps_get | apply keeps_ret | apply keeps_emit
    | apply keeps_modify; solve [auto]
    | apply keeps_bind; [|intros ?]
    | match goal with
      | |- keeps _ (let _ := _ in _) => cbv zeta
      | |- keeps _ (if ?b then _ else _) => destruct b
      | |- keeps _ (match ?x with _ => _ end) => destruct x
      end ].

Lemma keeps_forwardSelection : keeps R forwardSelection.
Proof. unfold forwardSelection, view_dispatch. keep. Qed.

Lemma keeps_valueChanged : keeps R valueChanged.
Proof. unfold valueChanged, view_dispatch. keep. Qed.

Lemma keeps_listener l : keeps R (listener l).
Proof.
  pose proof keeps_forwardSelection. pose proof keeps_valueChanged.
  destruct l; unfold listener; keep; auto.
Qed.

Lemma keeps_editSession_replace range t :
  keeps R (editSession_replace range t).
Proof.
  pose proof keeps_listener. unfold editSession_replace. keep; auto.
Qed.

Lemma keeps_selection_setSelectionRange range :
  keeps R (selection_setSelectionRange range).
Proof.
  pose proof keeps_listener. unfold selection_setSelectionRange. keep; auto.
Qed.

Lemma keeps_editor_focus : keeps R editor_focus.
Proof. pose proof keeps_listener. unfold editor_focus. keep; auto. Qed.

Lemma keeps_view_focus : keeps R view_focus.
Proof. pose proof keeps_listener. unfold view_focus. keep; auto. Qed.

Lemma keeps_update newNode : keeps R (update newNode).
Proof.
  pose proof keeps_editSession_replace. unfold update. keep; auto.
Qed.

Lemma keeps_setSelection anchor head : keeps R (setSelection anchor head).
Proof.
  pose proof keeps_editor_focus. pose proof keeps_selection_setSelectionRange.
  unfold setSelection. keep; auto.
Qed.

Lemma keeps_backspace : keeps R backspaceMaybeDeleteNode.
Proof.
  pose proof keeps_view_focus.
  unfold backspaceMaybeDeleteNode, undoInputRule_dispatch, view_dispatch,
    editor_execCommand.
  keep; auto.
Qed.

Lemma keeps_arrow unit_ dir command :
  (forall b s, R s (set_escaping b s)) ->
  keeps R (arrowMaybeEscape unit_ dir command).
Proof.
  intros R_escaping. pose proof keeps_view_focus.
  unfold arrowMaybeEscape, view_dispatch, editor_execCommand.
  keep; auto.
Qed.

(** Every call but an arrow key. *)
Lemma keeps_perform c :
  (forall unit_ dir command, c <> key_arrow unit_ dir command) ->
  keeps R (perform c).
Proof.
  intros Hc.
  pose proof keeps_update. pose proof keeps_setSelection.
  pose proof keeps_editor_focus. pose proof keeps_backspace.
  pose proof keeps_listener.
  destruct c; try (exfalso; eapply Hc; reflexivity);
    unfold perform, selectNode; keep; auto.
Qed.

End Frames.

(** ** The [escaping] flag *)

Lemma sameEscaping_updateMode : keeps sameEscaping updateMode.
Proof. intros s. apply (updateMode_frame s). Qed.

Lemma sameEscaping_perform c :
  (forall unit_ dir command, c <> key_arrow unit_ dir command) ->
  keeps sameEscaping (perform c).
Proof.
  apply keeps_perform; unfold sameEscaping; try (intros; reflexivity).
  - intros; congruence.
  - apply sameEscaping_updateMode.
Qed.

Lemma sameEscaping_view_focus : keeps sameEscaping view_focus.
Proof.
  apply keeps_view_focus; unfold sameEscaping; try (intros; reflexivity).
  - intros; congruence.
  - apply sameEscaping_updateMode.
Qed.

Lemma arrowMaybeEscape_escaping unit_ dir command s :
  escaping (after (arrowMaybeEscape unit_ dir command s))
  = escaping s && staysInside unit_ dir s.
Proof.
  unfold arrowMaybeEscape. run. simpl.
  destruct (staysInside unit_ dir s); [simpl; rewrite andb_true_r; reflexivity|].
  rewrite andb_false_r.
  destruct (view_focus (set_escaping true s)) as [[u1 s1] e1]. simpl.
  destruct (escapeSelection dir s1); run; simpl;
    destruct (view_focus s1) as [[u2 s2] e2]; reflexivity.
Qed.

Lemma construct_escaping n st pos f eo o :
  escaping (fst (construct n st pos f eo o)) = false.
Proof.
  unfold construct. run. cbn zeta.
  match goal with
  | |- context [updateMode ?s0] =>
      pose proof (sameEscaping_updateMode s0) as E;
      destruct (updateMode s0) as [[u s1] e1]
  end.
  unfold sameEscaping, after in E. simpl in *. exact E.
Qed.

Lemma perform_escaping c s :
  escaping s = false -> escaping (after (perform c s)) = false.
Proof.
  intros E.
  destruct c;
    try (rewrite sameEscaping_perform by (intros; discriminate); exact E).
  unfold perform. rewrite arrowMaybeEscape_escaping, E. reflexivity.
Qed.

(** X5. [arrowMaybeEscape] returns with the [escaping] flag down, unless it
    found the flag raised and the movement stayed inside the editor; no
    other method touches the flag, so it is down in every state a node
    view can be in between two calls. *)
Theorem escaping_guard :
  (forall unit_ dir command s,
      escaping (after (arrowMaybeEscape unit_ dir command s))
      = escaping s && staysInside unit_ dir s) /\
  (forall c s,
      (forall unit_ dir command, c <> key_arrow unit_ dir command) ->
      escaping (after (perform c s)) = escaping s) /\
  (forall s, reachable s -> escaping s = false).
Proof.
  split; [exact arrowMaybeEscape_escaping|].
  split; [intros c s Hc; apply (sameEscaping_perform c Hc s)|].
  intros s H. induction H as [n st pos f eo o | s c H IH].
  - apply construct_escaping.
  - apply perform_escaping, IH.
Qed.

(** A node view at the top of its document, after an arrow key took the
    cursor out of it. *)
Lemma escaping_guard_witness :
  let host := Sample.stateOf [Sample.ruleNode; Sample.codeNode (lit "x")]
                             (TextSelection_create 2 2) false in
  let s0 := fst (construct (Sample.codeNode (lit "x")) host 1 FocusInner
                           Sample.noExecution Sample.plainOptions) in
  let s1 := after (perform (key_arrow "char" 1 "gotoright") s0) in
  staysInside "char" 1 s0 = false /\ escaping s1 = false.
Proof.
  cbn zeta. split; [vm_compute; reflexivity|].
  apply (proj2 (proj2 escaping_guard)).
  apply reachable_call, reachable_new.
Defined.

(** ** The toolbar *)

Lemma sameConfiguration_refl s : sameConfiguration s s.
Proof. unfold sameConfiguration. auto. Qed.

Lemma sameConfiguration_trans s1 s2 s3 :
  sameConfiguration s1 s2 -> sameConfiguration s2 s3 ->
  sameConfiguration s1 s3.
Proof.
  unfold sameConfiguration, toolbarSound, canExecuteChunks.
  intros (O1 & E1 & T1) (O2 & E2 & T2).
  repeat split; try congruence.
  destruct T2 as [T2|T2]; [|right; exact T2].
  destruct T1 as [T1|T1]; [left; congruence|].
  right. rewrite T2, O2, E2. exact T1.
Qed.

Lemma sameConfiguration_sound s s' :
  sameConfiguration s s' -> toolbarSound s -> toolbarSound s'.
Proof.
  unfold sameConfiguration, toolbarSound, canExecuteChunks.
  intros (O & E & [T|T]) H; [|exact T].
  rewrite T, O, E. exact H.
Qed.

Lemma updateMode_toolbarSound s : toolbarSound (after (updateMode s)).
Proof.
  destruct (updateMode_frame s) as (_ & _ & _ & _ & _ & _ & _ & _ & O & E).
  unfold toolbarSound, canExecuteChunks. rewrite O, E. clear O E.
  unfold updateMode, updateModeWith. run.
  destruct (lang (options s) (node s) (getContents s)) as [l|]; simpl;
    [|discriminate].
  unfold canExecuteChunks.
  destruct (str_eq (mode s) l); simpl;
    destruct (truthy l); simpl; try discriminate;
    destruct (rmdChunkExecution (editorOptions s)); simpl; try discriminate;
    destruct (executeRmdChunkFn (options s)); simpl; auto; discriminate.
Qed.

Lemma sameConfiguration_updateMode : keeps sameConfiguration updateMode.
Proof.
  intros s.
  destruct (updateMode_frame s) as (_ & _ & _ & _ & _ & _ & _ & _ & O & E).
  repeat split; auto. right. apply updateMode_toolbarSound.
Qed.

Lemma sameConfiguration_perform c : keeps sameConfiguration (perform c).
Proof.
  assert (S : forall f,
             (forall s, options (f s) = options s /\
                        editorOptions (f s) = editorOptions s /\
                        toolbarDisplayed (f s) = toolbarDisplayed s) ->
             forall s, sameConfiguration s (f s)).
  { intros f H s. destruct (H s) as (O & E & T).
    unfold sameConfiguration. auto. }
  destruct c.
  all: try (apply keeps_perform;
            [ apply sameConfiguration_refl | apply sameConfiguration_trans
            | intros; apply S; auto .. | apply sameConfiguration_updateMode
            | intros; discriminate ]).
  unfold perform.
  apply keeps_arrow;
    [ apply sameConfiguration_refl | apply sameConfiguration_trans
    | intros; apply S; auto .. | apply sameConfiguration_updateMode
    | intros; apply S; auto ].
Qed.

Lemma construct_toolbarSound n st pos f eo o :
  toolbarSound (fst (construct n st pos f eo o)).
Proof.
  unfold construct. run. cbn zeta.
  match goal with
  | |- context [updateMode ?s0] =>
      pose proof (updateMode_toolbarSound s0) as T;
      destruct (updateMode s0) as [[u s1] e1]
  end.
  unfold after in T. simpl in *. exact T.
Qed.

Lemma reachable_toolbarSound s : reachable s -> toolbarSound s.
Proof.
  intros H. induction H as [n st pos f eo o | s c H IH].
  - apply construct_toolbarSound.
  - eapply sameConfiguration_sound; [apply sameConfiguration_perform|exact IH].
Qed.

(** X6. Between two calls the run-chunk toolbar is on display only when an
    execution callback and a list of executable languages are configured;
    so neither toolbar action ever calls a callback that is not there. *)
Theorem toolbar_actions_safe
        {C : Type} (rmdChunk : jsstring -> option C)
        (previousExecutableRmdChunks : EditorState -> Z -> list C)
        (mergeRmdChunks : list C -> option C)
        (s : CodeBlockNodeView) :
  reachable s ->
  (toolbarDisplayed s = true ->
   executeRmdChunkFn (options s) = true /\
   rmdChunkExecution (editorOptions s) <> None) /\
  executeChunk rmdChunk s <> CalledUndefined /\
  executePreviousChunks previousExecutableRmdChunks mergeRmdChunks s
    <> CalledUndefined.
Proof.
  intros H. apply reachable_toolbarSound in H.
  unfold toolbarSound, canExecuteChunks in H.
  unfold executeChunk, executePreviousChunks, callExecuteRmdChunkFn,
    isChunkExecutionEnabled.
  destruct (toolbarDisplayed s).
  - specialize (H eq_refl).
    destruct (rmdChunkExecution (editorOptions s)); [|discriminate].
    rewrite H. repeat split; try discriminate.
    + destruct (rmdChunk _); discriminate.
    + cbn zeta. destruct (mergeRmdChunks _); discriminate.
  - repeat split; discriminate.
Qed.

(** A code block classified as [r], with [r] among the executable
    languages and a callback: the toolbar is on display and a click on the
    run button executes the chunk. *)
Lemma toolbar_actions_safe_witness :
  let host := Sample.stateOf [Sample.codeNode (lit "x")]
                             (TextSelection_create 1 1) false in
  let s := fst (construct (Sample.codeNode (lit "x")) host 0 FocusHost
                          {| rmdChunkExecution := Some [lit "R"] |}
                          (Sample.langOptions (lit "r"))) in
  toolbarDisplayed s = true /\
  executeChunk (fun code => Some code) s <> CalledUndefined.
Proof.
  cbn zeta. split; [vm_compute; reflexivity|].
  apply (toolbar_actions_safe (fun code : jsstring => Some code)
           (fun _ _ => []) (fun _ => None)).
  apply reachable_new.
Defined.

(** ** Host-driven update, further *)

(** X7. [update] never hands anything to the host and never moves the
    focus: the only traces it leaves are a mode change, the guarded
    replacement and the [change] listener that replacement fires. *)
Theorem update_stays_inside (newNode : ProsemirrorNode)
        (s : CodeBlockNodeView) :
  let r := update newNode s in
  dispatched (events r) = [] /\
  forallb updateEvent (events r) = true /\
  focus (after r) = focus s /\
  escaping (after r) = escaping s.
Proof.
  cbn zeta. rewrite update_eq.
  destruct (NodeType_same (type newNode) (type (node s)));
    [|simpl; repeat split; auto].
  destruct (updateMode_frame (set_node newNode s))
    as (_ & _ & Fe & _ & _ & Ff & _).
  pose proof (updateMode_events (set_node newNode s)) as Ev.
  destruct (updateMode_events_guarded (set_node newNode s)) as (_ & _ & D).
  assert (Hm : forallb updateEvent
                 (events (updateMode (set_node newNode s))) = true).
  { rewrite Ev. destruct (lang _ _ _) as [l|]; [|reflexivity].
    destruct (str_eq _ _); reflexivity. }
  destruct (computeChange (getContents s) (textContent newNode));
    cbn zeta; unfold after, events in *; simpl.
  - unfold dispatched in *. rewrite flat_map_app, forallb_app, D, Hm. simpl.
    repeat split; auto.
  - repeat split; auto.
Qed.

Lemma update_sync newNode s :
  NodeType_same (type newNode) (type (node s)) = true ->
  node (after (update newNode s)) = newNode /\
  getContents (after (update newNode s)) = textContent newNode.
Proof.
  intros T. rewrite update_eq, T.
  destruct (updateMode_frame (set_node newNode s))
    as (Fn & _ & _ & Fe & _).
  destruct (computeChange (getContents s) (textContent newNode))
    as [change|] eqn:C; cbn zeta; unfold after, getContents in *; simpl.
  - rewrite !positionToIndex_indexToPosition.
    split; [exact Fn|]. apply (computeChange_patch _ _ _ C).
  - split; [exact Fn|]. rewrite Fe. simpl.
    apply computeChange_None in C. exact C.
Qed.

(** X8. An update whose node already carries the text of the inner buffer
    leaves the editor, buffer and selection, exactly as it was, and applies
    nothing. *)
Theorem update_in_sync_is_noop (newNode : ProsemirrorNode)
        (s : CodeBlockNodeView) :
  textContent newNode = getContents s ->
  let r := update newNode s in
  editor (after r) = editor s /\
  existsb isApply (events r) = false /\
  updating (after r) = updating s.
Proof.
  intros H. cbn zeta. rewrite update_eq.
  destruct (NodeType_same (type newNode) (type (node s))); [|simpl; auto].
  destruct (updateMode_frame (set_node newNode s))
    as (_ & Fu & _ & Fe & _).
  destruct (updateMode_events_guarded (set_node newNode s)) as (_ & A & _).
  symmetry in H. apply computeChange_None in H. rewrite H.
  unfold after, events in *. simpl in *. auto.
Qed.

Lemma update_in_sync_is_noop_witness :
  let cursor := {| Ace.row := 0; Ace.column := 1 |} in
  let s := Sample.binding (lit "abc") cursor cursor 0
             (Sample.stateOf [Sample.codeNode (lit "abc")]
                             (TextSelection_create 2 2) false)
             Sample.plainOptions Sample.noExecution in
  let r := update (Sample.codeNode (lit "abc")) s in
  editor (after r) = editor s /\
  existsb isApply (events r) = false /\
  updating (after r) = updating s.
Proof.
  cbn zeta. apply update_in_sync_is_noop. reflexivity.
Defined.

(** X9. Right after an accepted update the inner-to-host direction is
    silent: [valueChanged] finds buffer and node equal and dispatches
    nothing. *)
Theorem update_then_valueChanged (newNode : ProsemirrorNode)
        (s : CodeBlockNodeView) :
  NodeType_same (type newNode) (type (node s)) = true ->
  dispatched (events (valueChanged (after (update newNode s)))) = [].
Proof.
  intros T. destruct (update_sync newNode s T) as (Hn & Hc).
  rewrite valueChanged_dispatched, Hn, Hc.
  rewrite (proj2 (computeChange_None _ _) eq_refl). reflexivity.
Qed.

Lemma update_then_valueChanged_witness :
  let s := Sample.binding (lit "abc") Ace.origin Ace.origin 0
             (Sample.stateOf [Sample.codeNode (lit "abc")]
                             (TextSelection_create 1 1) false)
             Sample.plainOptions Sample.noExecution in
  dispatched
    (events (valueChanged (after (update (Sample.codeNode (lit "abXc")) s))))
  = [].
Proof.
  cbn zeta. apply update_then_valueChanged. reflexivity.
Defined.

(** ** Inner-to-host changes, further *)

Lemma computeChange_nontrivial oldVal newVal c :
  computeChange oldVal newVal = Some c -> from c < to c \/ text c <> [].
Proof.
  intros H. pose proof (computeChange_patch _ _ _ H) as P.
  apply computeChange_Some in H. destruct H as (Hne & Hft & _).
  destruct (Nat.eq_dec (from c) (to c)) as [E|]; [|left; lia].
  right. intros Hnil. apply Hne. rewrite <- P. unfold replaceRange.
  rewrite Hnil, <- E. simpl. symmetry. apply firstn_skipn.
Qed.

(** X10. [valueChanged] dispatches nothing exactly when the buffer
    equals the node's text, and otherwise one transaction made of one
    replacement.  That replacement lies inside the node's content, is never
    empty on both sides, carries no content exactly when it only removes,
    and, applied to the node's text at node-local offsets, gives the
    buffer. *)
Theorem valueChanged_transaction (s : CodeBlockNodeView) :
  let p := getPos s in
  let old := textContent (node s) in
  (dispatched (events (valueChanged s)) = [] <-> getContents s = old) /\
  match dispatched (events (valueChanged s)) with
  | [] => getContents s = old
  | [[tr_replaceWith a b content]] =>
      (p + 1 <= a)%Z /\ (a <= b)%Z /\
      (b <= p + 1 + Z.of_nat (List.length old))%Z /\
      content <> Some [] /\
      (content = None -> (a < b)%Z) /\
      replaceRange old
        {| from := Z.to_nat (a - (p + 1));
           to := Z.to_nat (b - (p + 1));
           text := match content with Some x => x | None => [] end |}
      = getContents s
  | _ => False
  end.
Proof.
  cbn zeta. rewrite valueChanged_dispatched.
  destruct (computeChange (textContent (node s)) (getContents s))
    as [c|] eqn:C.
  - pose proof (computeChange_patch _ _ _ C) as P.
    pose proof (computeChange_nontrivial _ _ _ C) as N.
    pose proof C as C'. apply computeChange_Some in C.
    destruct C as (Hne & Hft & Hto & _).
    split; [split; [discriminate | intros E; symmetry in E; contradiction]|].
    replace (Z.to_nat (getPos s + 1 + Z.of_nat (from c) - (getPos s + 1)))
      with (from c) by lia.
    replace (Z.to_nat (getPos s + 1 + Z.of_nat (to c) - (getPos s + 1)))
      with (to c) by lia.
    unfold replaceRange in *. cbn [from to text].
    destruct (text c) as [|x t] eqn:Tx; simpl.
    + repeat split; try lia; try discriminate.
      * intros _. destruct N as [N|N]; [lia|congruence].
      * exact P.
    + repeat split; try lia; try discriminate. exact P.
  - apply computeChange_None in C. symmetry in C.
    split; [split; auto|exact C].
Qed.

(** ** Mode updates, further *)

(** X11. [updateMode] is idempotent: run again on the state it produced, it
    sets no mode and changes nothing. *)
Theorem updateMode_idempotent (s : CodeBlockNodeView) :
  let s1 := after (updateMode s) in
  updateMode s1 = (tt, s1, []).
Proof.
  cbn zeta. unfold updateMode, updateModeWith. run.
  destruct (lang (options s) (node s) (getContents s)) as [l|] eqn:L;
    simpl.
  - destruct (str_eq (mode s) l) eqn:E; simpl.
    + destruct (truthy l && canExecuteChunks s) eqn:X; simpl;
        unfold getContents in *; simpl; rewrite L; simpl; rewrite E; simpl;
        unfold canExecuteChunks in *; simpl; rewrite X; reflexivity.
    + assert (E' : str_eq l l = true) by (apply str_eq_true; reflexivity).
      destruct (truthy l && canExecuteChunks (set_mode l s)) eqn:X; simpl;
        unfold getContents in *; simpl; rewrite L; simpl; rewrite E'; simpl;
        unfold canExecuteChunks in *; simpl in *; rewrite X; reflexivity.
  - unfold getContents in *. simpl. rewrite L. reflexivity.
Qed.

(** ** Host-requested selections *)

Lemma forwardSelection_state s : after (forwardSelection s) = s.
Proof.
  unfold forwardSelection. run. cbn -[Selection_eqb asProseMirrorSelection].
  destruct (hasFocus s); cbn -[Selection_eqb asProseMirrorSelection];
    [|reflexivity].
  destruct (Selection_eqb _ _); reflexivity.
Qed.

(** What [setSelection] computes, with the listeners it fires already
    run. *)
Lemma setSelection_eq anchor head s :
  let range :=
    Ace.fromPoints (Ace.indexToPosition (editor s) anchor)
                   (Ace.indexToPosition (editor s) head) in
  let focused := set_inactive false (set_focus FocusInner s) in
  let apply s0 :=
    (set_updating false (set_editor (Ace.selected (editor s) range) s0),
     [SetSelectionRange true range; Fired onChangeCursor (Some true)]) in
  setSelection anchor head s
  = if escaping s || hasFocus s then
      (tt, fst (apply s),
       (if escaping s then [] else [EditorFocus]) ++ snd (apply s))
    else
      (tt, fst (apply focused),
       EditorFocus :: Fired onFocus None ::
       events (forwardSelection focused) ++ snd (apply focused)).
Proof.
  cbn zeta. unfold setSelection. run.
  destruct (escaping s) eqn:E; simpl.
  - unfold selection_setSelectionRange, listener. run. simpl. reflexivity.
  - unfold editor_focus, hasFocus. run. simpl.
    destruct (focus s) eqn:F; simpl.
    + unfold selection_setSelectionRange, listener. run. simpl. reflexivity.
    + unfold listener. run. simpl.
      pose proof (forwardSelection_state
                    (set_inactive false (set_focus FocusInner s))) as Q.
      destruct (forwardSelection _) as [[u s1] e1].
      unfold after in Q. simpl in Q. subst s1.
      unfold selection_setSelectionRange, listener. run. simpl.
      reflexivity.
    + unfold listener. run. simpl.
      pose proof (forwardSelection_state
                    (set_inactive false (set_focus FocusInner s))) as Q.
      destruct (forwardSelection _) as [[u s1] e1].
      unfold after in Q. simpl in Q. subst s1.
      unfold selection_setSelectionRange, listener. run. simpl.
      reflexivity.
Qed.

(** X12. [setSelection] gives the inner editor the focus unless an escape
    is under way, in which case the focus stays where it is; it never
    touches the buffer; and it dispatches nothing, except for the selection
    forwarded by the [focus] listener when the editor gains the focus. *)
Theorem setSelection_focus (anchor head : nat) (s : CodeBlockNodeView) :
  let r := setSelection anchor head s in
  focus (after r) = (if escaping s then focus s else FocusInner) /\
  Ace.value (editor (after r)) = Ace.value (editor s) /\
  dispatched (events r)
  = if escaping s || hasFocus s then []
    else dispatched
           (events (forwardSelection
                      (set_inactive false (set_focus FocusInner s)))).
Proof.
  cbn zeta. rewrite setSelection_eq. cbn zeta.
  destruct (escaping s) eqn:E; simpl; [auto|].
  unfold hasFocus. destruct (focus s) eqn:F; simpl; auto.
  all: repeat split; auto.
  all: unfold dispatched; rewrite flat_map_app; simpl;
    rewrite app_nil_r; reflexivity.
Qed.

(** X13. A selection the host asks for comes back from the inner editor at
    the same host offsets, put in forward order: after
    [setSelection(anchor, head)] the selection the node view would forward
    runs from [getPos + 1 + min] to [getPos + 1 + max] of the two
    offsets. *)
Theorem selection_roundtrip (anchor head : nat) (s : CodeBlockNodeView) :
  asProseMirrorSelection (after (setSelection anchor head s))
  = TextSelection_create
      (getPos s + 1 + Z.of_nat (Nat.min anchor head))
      (getPos s + 1 + Z.of_nat (Nat.max anchor head)).
Proof.
  rewrite setSelection_eq. cbn zeta.
  assert (H : forall s0,
             getPos s0 = getPos s ->
             asProseMirrorSelection
               (set_updating false
                  (set_editor
                     (Ace.selected (editor s)
                        (Ace.fromPoints
                           (Ace.indexToPosition (editor s) anchor)
                           (Ace.indexToPosition (editor s) head))) s0))
             = TextSelection_create
                 (getPos s + 1 + Z.of_nat (Nat.min anchor head))
                 (getPos s + 1 + Z.of_nat (Nat.max anchor head))).
  { intros s0 P. unfold asProseMirrorSelection, Ace.getRange. simpl.
    rewrite indexToPosition_leb, P.
    destruct (anchor <=? head) eqn:L; simpl;
      unfold Ace.positionToIndex; simpl;
      fold (Ace.positionToIndex (editor s)
              (Ace.indexToPosition (editor s) anchor));
      fold (Ace.positionToIndex (editor s)
              (Ace.indexToPosition (editor s) head));
      rewrite !positionToIndex_indexToPosition;
      [apply Nat.leb_le in L | apply Nat.leb_gt in L]; f_equal; lia. }
  destruct (escaping s || hasFocus s); unfold after; simpl; apply H;
    reflexivity.
Qed.

End NodeView.
